(** * go-tfe: events, plan logs, run operations

    A shallow embedding of the event subscription (event.go), the plan
    operations (plan.go), the run operations and the identifier validation
    of the client library, followed by the properties established about
    them.

    Conventions.  A Go function returning [(T, error)] is a value of
    [T + error]; a Go function returning only [error] is a value of
    [option error] with [None] for [nil].  Calls that touch the remote
    service thread a world [W] through a small state monad.  Collaborators
    whose code lives outside the modelled files (the transport's
    [newRequest] and [do], the packages [net/url], [encoding/json] and
    [websocket]) are fields of records passed explicitly, as the Go code
    reaches them through its receivers and imports. *)

From Stdlib Require Import String Ascii List Bool Arith ZArith Lia.
Import ListNotations.
Local Open Scope string_scope.

(* ===================================================================== *)
(** * Part I: the program                                                 *)
(* ===================================================================== *)

(** ** Errors and results *)

(** A Go [error] built by [errors.New] or [fmt.Errorf], or handed back by a
    collaborator; [Error] is its message. *)
Inductive error : Type :=
| errors_New (msg : string).

Definition Error (e : error) : string :=
  match e with errors_New msg => msg end.

(** What the caller sees of a [(T, error)] pair. *)
Definition ret_val {T : Type} (r : T + error) : option T :=
  match r with inl v => Some v | inr _ => None end.

Definition ret_err {T : Type} (r : T + error) : option error :=
  match r with inl _ => None | inr e => Some e end.

(** A result that is a nil value with a non-nil error. *)
Definition fails {T : Type} (r : T + error) : Prop :=
  ret_val r = None /\ exists err, ret_err r = Some err.

(** ** Identifier validation *)

Module Validation.

(** One item of a bracket expression. *)
Inductive class_item : Type :=
| Range (lo hi : ascii)
| Lit (c : ascii).

Definition in_item (c : ascii) (i : class_item) : bool :=
  match i with
  | Range lo hi =>
      ((nat_of_ascii lo <=? nat_of_ascii c)%nat
       && (nat_of_ascii c <=? nat_of_ascii hi)%nat)%bool
  | Lit d => (nat_of_ascii c =? nat_of_ascii d)%nat
  end.

Definition in_class (cls : list class_item) (c : ascii) : bool :=
  existsb (in_item c) cls.

Fixpoint all_in_class (cls : list class_item) (s : string) : bool :=
  match s with
  | EmptyString => true
  | String c rest => in_class cls c && all_in_class cls rest
  end.

(** [MatchString] for a pattern of the shape [^[cls]+$]: the whole text,
    one or more characters, each of the class ([$] without the [m] flag
    matches at the end of the text only). *)
Definition MatchString (cls : list class_item) (s : string) : bool :=
  match s with
  | EmptyString => false
  | String _ _ => all_in_class cls s
  end.

(** [reStringID = regexp.MustCompile(`^[a-zA-Z0-9\-\._]+$`)] *)
Definition reStringID : list class_item :=
  [Range "a" "z"; Range "A" "Z"; Range "0" "9"; Lit "-"; Lit "."; Lit "_"].

(** [validString]: present and non-empty. *)
Definition validString (v : option string) : bool :=
  match v with
  | None => false
  | Some s => negb (String.eqb s "")
  end.

(** [validStringID]: non-nil and a typical string identifier. *)
Definition validStringID (v : option string) : bool :=
  match v with
  | None => false
  | Some s => MatchString reStringID s
  end.

End Validation.

(** ** Resource shapes *)

Module Types.

(** [PlanStatus] represents a plan state. *)
Definition PlanStatus : Type := string.

Definition PlanCanceled    : PlanStatus := "canceled".
Definition PlanCreated     : PlanStatus := "created".
Definition PlanErrored     : PlanStatus := "errored".
Definition PlanFinished    : PlanStatus := "finished".
Definition PlanMFAWaiting  : PlanStatus := "mfa_waiting".
Definition PlanPending     : PlanStatus := "pending".
Definition PlanQueued      : PlanStatus := "queued".
Definition PlanRunning     : PlanStatus := "running".
Definition PlanUnreachable : PlanStatus := "unreachable".

(** [Plan]: the attributes of basic type; the timestamps and the exports
    relation play no part in the operations below. *)
Record Plan : Type := {
  ID : string;
  HasChanges : bool;
  LogReadURL : string;
  ResourceAdditions : Z;
  ResourceChanges : Z;
  ResourceDestructions : Z;
  Status : PlanStatus
}.

(** The option structs of the run operations.  [ListOptions] is declared
    with the pagination code, outside the modelled files. *)
Record RunListOptions {ListOptions : Type} : Type := {
  RunListOptions_ListOptions : ListOptions;
  RunListOptions_Include : option string
}.
Arguments RunListOptions ListOptions : clear implicits.

Record RunReadOptions : Type := { RunReadOptions_Include : string }.
Record RunApplyOptions : Type := { RunApplyOptions_Comment : option string }.
Record RunCancelOptions : Type := { RunCancelOptions_Comment : option string }.
Record RunForceCancelOptions : Type :=
  { RunForceCancelOptions_Comment : option string }.
Record RunDiscardOptions : Type := { RunDiscardOptions_Comment : option string }.
Record PlanFileOptions : Type := { PlanFileOptions_Format : string }.

End Types.

(** ** The transport the operations sit on *)

Module Transport.
Import Types.

Section Monad.
Context {W : Type}.

(** A computation over the world [W]. *)
Definition M (A : Type) : Type := W -> A * W.

Definition ret {A : Type} (a : A) : M A := fun w => (a, w).

Definition bind {A B : Type} (m : M A) (k : A -> M B) : M B :=
  fun w => let (a, w') := m w in k a w'.
End Monad.

Arguments M W A : clear implicits.

Declare Scope go_scope.
Delimit Scope go_scope with go.
Notation "x <- m ;; k" := (bind m (fun x => k))
  (at level 61, m at next level, right associativity) : go_scope.

(** The [v interface{}] handed to [newRequest]. *)
Inductive body {ListOptions : Type} : Type :=
| body_nil
| body_RunListOptions (o : RunListOptions ListOptions)
| body_RunReadOptions (o : RunReadOptions)
| body_RunApplyOptions (o : RunApplyOptions)
| body_RunCancelOptions (o : RunCancelOptions)
| body_RunForceCancelOptions (o : RunForceCancelOptions)
| body_RunDiscardOptions (o : RunDiscardOptions)
| body_PlanFileOptions (o : PlanFileOptions).
Arguments body ListOptions : clear implicits.

(** The [v interface{}] handed to [do]: what the response is decoded
    into. *)
Inductive target : Type :=
| into_Plan | into_Run | into_RunList | into_Buffer | into_nil.

Definition decoded (Run RunList : Type) (t : target) : Type :=
  match t with
  | into_Plan => Plan
  | into_Run => Run
  | into_RunList => RunList
  | into_Buffer => list Byte.byte
  | into_nil => unit
  end.

(** [Client]: the two methods the operations use.  [Ctx] is
    [context.Context], [Req] the request value [newRequest] builds, [Run]
    and [RunList] the run resource shapes (only ever passed through). *)
Record Client {W Ctx Req ListOptions Run RunList : Type} : Type := {
  newRequest : string -> string -> body ListOptions -> M W (Req + error);
  do : forall t : target, Ctx -> Req -> M W (decoded Run RunList t + error)
}.
Arguments Client W Ctx Req ListOptions Run RunList : clear implicits.

(** Package [net/url]. *)
Class NetURL (URL : Type) : Type := {
  QueryEscape : string -> string;
  Parse : string -> URL + error
}.

End Transport.

(** ** plan.go *)

Module Plans.
Import Types Validation Transport.
Local Open Scope go_scope.

Section Defs.
Context {W Ctx Req ListOptions Run RunList URL : Type}.
Context {net_url : NetURL URL}.

Abbreviation Client := (Client W Ctx Req ListOptions Run RunList).

(** [plans] implements [Plans]. *)
Record plans : Type := { client : Client }.

(** [LogReader], as the composite literal in [Logs] fills it. *)
Record LogReader : Type := {
  LogReader_client : Client;
  LogReader_ctx : Ctx;
  LogReader_done : M W (bool * option error);
  LogReader_logURL : URL
}.

(** Read a plan by its ID. *)
Definition Read (s : plans) (ctx : Ctx) (planID : string) : M W (Plan + error) :=
  if negb (validStringID (Some planID)) then
    ret (inr (errors_New "invalid value for plan ID"))
  else
    let u := "plans/" ++ QueryEscape planID in
    r <- newRequest (client s) "GET" u body_nil ;;
    match r with
    | inr err => ret (inr err)
    | inl req =>
        r' <- do (client s) into_Plan ctx req ;;
        match r' with
        | inr err => ret (inr err)
        | inl p => ret (inl p)
        end
    end.

(** The [switch p.Status] of the completion predicate. *)
Definition terminal (st : PlanStatus) : bool :=
  String.eqb st PlanCanceled || String.eqb st PlanErrored
  || String.eqb st PlanFinished || String.eqb st PlanUnreachable.

(** The closure [done] of [Logs], over the plan [p] read first. *)
Definition done (s : plans) (ctx : Ctx) (p : Plan) : M W (bool * option error) :=
  r <- Read s ctx (ID p) ;;
  match r with
  | inr err => ret (false, Some err)
  | inl p' =>
      if terminal (Status p') then ret (true, None) else ret (false, None)
  end.

(** Logs retrieves the logs of a plan. *)
Definition Logs (s : plans) (ctx : Ctx) (planID : string) : M W (LogReader + error) :=
  if negb (validStringID (Some planID)) then
    ret (inr (errors_New "invalid value for plan ID"))
  else
    r <- Read s ctx planID ;;
    match r with
    | inr err => ret (inr err)
    | inl p =>
        if String.eqb (LogReadURL p) "" then
          ret (inr (errors_New ("plan " ++ planID ++ " does not have a log URL")))
        else
          match Parse (LogReadURL p) with
          | inr err => ret (inr (errors_New ("invalid log URL: " ++ Error err)))
          | inl u =>
              ret (inl {| LogReader_client := client s;
                          LogReader_ctx := ctx;
                          LogReader_done := done s ctx p;
                          LogReader_logURL := u |})
          end
    end.

(** Retrieve the JSON execution plan. *)
Definition JSONOutput (s : plans) (ctx : Ctx) (planID : string)
  : M W (list Byte.byte + error) :=
  if negb (validStringID (Some planID)) then
    ret (inr (errors_New "invalid value for plan ID"))
  else
    let u := "plans/" ++ QueryEscape planID ++ "/json-output" in
    r <- newRequest (client s) "GET" u body_nil ;;
    match r with
    | inr err => ret (inr err)
    | inl req =>
        r' <- do (client s) into_Buffer ctx req ;;
        match r' with
        | inr err => ret (inr err)
        | inl buf => ret (inl buf)
        end
    end.
End Defs.

Arguments plans W Ctx Req ListOptions Run RunList : clear implicits.
Arguments LogReader W Ctx Req ListOptions Run RunList URL : clear implicits.

End Plans.

(** ** Run operations *)

Module Runs.
Import Types Validation Transport.
Local Open Scope go_scope.

(** The sentinel errors of the run operations; they are declared with
    the other sentinels of the package, outside the modelled files, and
    only their identity matters here. *)
Class Sentinels : Type := {
  ErrInvalidRunID : error;
  ErrInvalidWorkspaceID : error
}.

Section Defs.
Context {W Ctx Req ListOptions Run RunList URL : Type}.
Context {net_url : NetURL URL} {sentinels : Sentinels}.

Abbreviation Client := (Client W Ctx Req ListOptions Run RunList).

(** [runs] implements [Runs]. *)
Record runs : Type := { client : Client }.

(** List all the runs of the given workspace. *)
Definition List (s : runs) (ctx : Ctx) (workspaceID : string)
  (options : RunListOptions ListOptions) : M W (RunList + error) :=
  if negb (validStringID (Some workspaceID)) then
    ret (inr ErrInvalidWorkspaceID)
  else
    let u := "workspaces/" ++ QueryEscape workspaceID ++ "/runs" in
    r <- newRequest (client s) "GET" u (body_RunListOptions options) ;;
    match r with
    | inr err => ret (inr err)
    | inl req =>
        r' <- do (client s) into_RunList ctx req ;;
        match r' with
        | inr err => ret (inr err)
        | inl rl => ret (inl rl)
        end
    end.

(** Read a run by its ID with the given options. *)
Definition ReadWithOptions (s : runs) (ctx : Ctx) (runID : string)
  (options : RunReadOptions) : M W (Run + error) :=
  if negb (validStringID (Some runID)) then
    ret (inr ErrInvalidRunID)
  else
    let u := "runs/" ++ QueryEscape runID in
    r <- newRequest (client s) "GET" u (body_RunReadOptions options) ;;
    match r with
    | inr err => ret (inr err)
    | inl req =>
        r' <- do (client s) into_Run ctx req ;;
        match r' with
        | inr err => ret (inr err)
        | inl run => ret (inl run)
        end
    end.

(** Read a run by its ID. *)
Definition Read (s : runs) (ctx : Ctx) (runID : string) : M W (Run + error) :=
  ReadWithOptions s ctx runID {| RunReadOptions_Include := "" |}.

(** Apply a run by its ID. *)
Definition Apply (s : runs) (ctx : Ctx) (runID : string)
  (options : RunApplyOptions) : M W (option error) :=
  if negb (validStringID (Some runID)) then
    ret (Some ErrInvalidRunID)
  else
    let u := "runs/" ++ QueryEscape runID ++ "/actions/apply" in
    r <- newRequest (client s) "POST" u (body_RunApplyOptions options) ;;
    match r with
    | inr err => ret (Some err)
    | inl req =>
        r' <- do (client s) into_nil ctx req ;;
        ret (ret_err r')
    end.

(** Cancel a run by its ID. *)
Definition Cancel (s : runs) (ctx : Ctx) (runID : string)
  (options : RunCancelOptions) : M W (option error) :=
  if negb (validStringID (Some runID)) then
    ret (Some ErrInvalidRunID)
  else
    let u := "runs/" ++ QueryEscape runID ++ "/actions/cancel" in
    r <- newRequest (client s) "POST" u (body_RunCancelOptions options) ;;
    match r with
    | inr err => ret (Some err)
    | inl req =>
        r' <- do (client s) into_nil ctx req ;;
        ret (ret_err r')
    end.

(** ForceCancel is used to forcefully cancel a run by its ID. *)
Definition ForceCancel (s : runs) (ctx : Ctx) (runID : string)
  (options : RunForceCancelOptions) : M W (option error) :=
  if negb (validStringID (Some runID)) then
    ret (Some ErrInvalidRunID)
  else
    let u := "runs/" ++ QueryEscape runID ++ "/actions/force-cancel" in
    r <- newRequest (client s) "POST" u (body_RunForceCancelOptions options) ;;
    match r with
    | inr err => ret (Some err)
    | inl req =>
        r' <- do (client s) into_nil ctx req ;;
        ret (ret_err r')
    end.

(** Discard a run by its ID. *)
Definition Discard (s : runs) (ctx : Ctx) (runID : string)
  (options : RunDiscardOptions) : M W (option error) :=
  if negb (validStringID (Some runID)) then
    ret (Some ErrInvalidRunID)
  else
    let u := "runs/" ++ QueryEscape runID ++ "/actions/discard" in
    r <- newRequest (client s) "POST" u (body_RunDiscardOptions options) ;;
    match r with
    | inr err => ret (Some err)
    | inl req =>
        r' <- do (client s) into_nil ctx req ;;
        ret (ret_err r')
    end.

(** GetPlanFile gets the plan file for a run (no identifier check in
    the source). *)
Definition GetPlanFile (s : runs) (ctx : Ctx) (runID : string)
  (options : PlanFileOptions) : M W (list Byte.byte + error) :=
  let u := "/runs/" ++ QueryEscape runID ++ "/plan" in
  r <- newRequest (client s) "GET" u (body_PlanFileOptions options) ;;
  match r with
  | inr err => ret (inr err)
  | inl req =>
      r' <- do (client s) into_Buffer ctx req ;;
      match r' with
      | inr err => ret (inr err)
      | inl buf => ret (inl buf)
      end
  end.
End Defs.

Arguments runs W Ctx Req ListOptions Run RunList : clear implicits.

End Runs.

(** ** event.go *)

Module Events.

(** [EventType] is a string type. *)
Definition EventType : Type := string.

Definition EventOrganizationCreated   : EventType := "organization_created".
Definition EventOrganizationDeleted   : EventType := "organization_deleted".
Definition EventWorkspaceCreated      : EventType := "workspace_created".
Definition EventWorkspaceDeleted      : EventType := "workspace_deleted".
Definition EventRunCreated            : EventType := "run_created".
Definition EventRunCompleted          : EventType := "run_completed".
Definition EventRunCanceled           : EventType := "run_canceled".
Definition EventRunApplied            : EventType := "run_applied".
Definition EventRunPlanned            : EventType := "run_planned".
Definition EventRunPlannedAndFinished : EventType := "run_planned_and_finished".
Definition EventPlanQueued            : EventType := "plan_queued".
Definition EventApplyQueued           : EventType := "apply_queued".
Definition EventError                 : EventType := "error".

(** The constants of the [const] block, in the order of the source. *)
Definition EventType_constants : list EventType :=
  [ EventOrganizationCreated; EventOrganizationDeleted;
    EventWorkspaceCreated; EventWorkspaceDeleted;
    EventRunCreated; EventRunCompleted; EventRunCanceled; EventRunApplied;
    EventRunPlanned; EventRunPlannedAndFinished;
    EventPlanQueued; EventApplyQueued; EventError ].

(** The tags the specification enumerates, in its words: organization
    and workspace created or deleted, run created, completed, canceled,
    applied, planned, plan and apply queued, and the error marker. *)
Definition spec_event_tags : list EventType :=
  [ "organization_created"; "organization_deleted";
    "workspace_created"; "workspace_deleted";
    "run_created"; "run_completed"; "run_canceled"; "run_applied";
    "run_planned"; "plan_queued"; "apply_queued"; "error" ].

(** [Payload interface{}]: a Go string, or any other decoded value. *)
Inductive payload {V : Type} : Type :=
| payload_nil
| payload_string (s : string)
| payload_value (v : V).
Arguments payload V : clear implicits.

Record Event {V : Type} : Type := {
  Event_Type : EventType;
  Event_Payload : payload V
}.
Arguments Event V : clear implicits.

(** What one [ReadMessage] call returns: [(messageType, p, nil)] or an
    error. *)
Inductive read_result : Type :=
| Message (messageType : Z) (p : list Byte.byte)
| ReadError (err : error).

(** A frame written with [WriteMessage]. *)
Record frame : Type := { frame_type : Z; frame_data : list Byte.byte }.

(** [*websocket.Conn], as far as the subscription uses it: [incoming]
    holds the results of the [ReadMessage] calls to come (with none left
    the call blocks), [outgoing] the frames written so far, [closed]
    whether [c.Close()] has run. *)
Record Conn : Type := {
  incoming : list read_result;
  outgoing : list frame;
  closed : bool
}.

(** What the file imports: [url.URL.String] for a scheme, host and path,
    the dialer, the close constants and [FormatCloseMessage] of package
    [websocket], and [json.Unmarshal] into an [Event]. *)
Class Imports (V : Type) : Type := {
  URL_String : string -> string -> string -> string;
  Dial : string -> Conn + error;
  CloseMessage : Z;
  CloseNormalClosure : Z;
  FormatCloseMessage : Z -> string -> list Byte.byte;
  Unmarshal : list Byte.byte -> Event V + error
}.

(** [c.ReadMessage()]: [None] while the call blocks. *)
Definition ReadMessage (c : Conn) : option (read_result * Conn) :=
  match incoming c with
  | [] => None
  | r :: rest =>
      Some (r, {| incoming := rest; outgoing := outgoing c; closed := closed c |})
  end.

(** [c.WriteMessage(messageType, data)].  [net] is what the network makes
    of the write: [Some err] when it fails, [None] when the frame goes
    out.  A write on a connection closed locally cannot go out, so that
    combination is no behaviour of the library ([None] overall). *)
Definition WriteMessage (c : Conn) (messageType : Z) (data : list Byte.byte)
  (net : option error) : option (option error * Conn) :=
  match net with
  | Some err => Some (Some err, c)
  | None =>
      if closed c then None
      else Some (None,
                 {| incoming := incoming c;
                    outgoing := outgoing c
                                ++ [{| frame_type := messageType; frame_data := data |}];
                    closed := closed c |})
  end.

(** [c.Close()] of the connection. *)
Definition Conn_Close (c : Conn) : Conn :=
  {| incoming := incoming c; outgoing := outgoing c; closed := true |}.

(** A channel of events: capacity, buffered elements, and whether
    [close] has been applied to it (no statement of the file does). *)
Record Chan {V : Type} : Type := {
  cap : nat;
  buf : list (Event V);
  chan_closed : bool
}.
Arguments Chan V : clear implicits.

(** [make(chan Event, n)]; [make(chan Event)] is [make_chan 0]. *)
Definition make_chan {V : Type} (n : nat) : Chan V :=
  {| cap := n; buf := []; chan_closed := false |}.

(** Where the statement after a completed send leads. *)
Inductive after : Type :=
| next_iteration   (* line 83, then the top of the [for] *)
| leave.           (* lines 73 and 79, then [return] *)

(** The control point of the delivery goroutine. *)
Inductive pc {V : Type} : Type :=
| at_read                               (* [c.ReadMessage()] *)
| at_send (ev : Event V) (k : after)    (* [ch <- ev] *)
| at_return                             (* [return], [defer c.Close()] pending *)
| exited.
Arguments pc V : clear implicits.

(** One subscription at run time: the connection and the channel the
    [subscription] struct points to, the goroutine started by [Subscribe],
    the events the consumer has received from [C()], and the values the
    calls of [Close()] have returned. *)
Record system {V : Type} : Type := {
  conn : Conn;
  ch : Chan V;
  task : pc V;
  received : list (Event V);
  Close_returns : list (option error)
}.
Arguments system V : clear implicits.

(** [events] implements [Events]; of the client only the host of the
    base URL is used. *)
Record events : Type := { client_baseURL_Host : string }.

Definition newline : string := String (ascii_of_nat 10) EmptyString.

Section Defs.
Context {V : Type} {imports : Imports V}.

(** [Subscribe]: dial, make the channel, start the goroutine. *)
Definition Subscribe (e : events) (id : string) : system V + error :=
  let u := URL_String "wss" (client_baseURL_Host e) "/events" in
  match Dial u with
  | inr err => inr err
  | inl c =>
      let ch := make_chan 0 in
      inl {| conn := c; ch := ch; task := at_read;
             received := []; Close_returns := [] |}
  end.

Definition resume (k : after) : pc V :=
  match k with
  | next_iteration => at_read
  | leave => at_return
  end.

(** One step of the goroutine on its own; [None] while it is blocked
    (on the read, or on a send no buffer slot can take) or gone. *)
Definition task_step (s : system V) : option (system V) :=
  match task s with
  | at_read =>
      match ReadMessage (conn s) with
      | None => None
      | Some (ReadError err, c') =>
          let ev := {| Event_Type := EventError;
                       Event_Payload := payload_string
                         ("websocket read error: " ++ Error err ++ newline) |} in
          Some {| conn := c'; ch := ch s; task := at_send ev leave;
                  received := received s; Close_returns := Close_returns s |}
      | Some (Message _ msg, c') =>
          match Unmarshal msg with
          | inr err =>
              let ev := {| Event_Type := EventError;
                           Event_Payload := payload_string
                             ("websocket decode error: " ++ Error err ++ newline) |} in
              Some {| conn := c'; ch := ch s; task := at_send ev leave;
                      received := received s; Close_returns := Close_returns s |}
          | inl ev =>
              Some {| conn := c'; ch := ch s; task := at_send ev next_iteration;
                      received := received s; Close_returns := Close_returns s |}
          end
      end
  | at_send ev k =>
      if (length (buf (ch s)) <? cap (ch s))%nat then
        Some {| conn := conn s;
                ch := {| cap := cap (ch s); buf := buf (ch s) ++ [ev];
                         chan_closed := chan_closed (ch s) |};
                task := resume k;
                received := received s; Close_returns := Close_returns s |}
      else None
  | at_return =>
      Some {| conn := Conn_Close (conn s); ch := ch s; task := exited;
              received := received s; Close_returns := Close_returns s |}
  | exited => None
  end.

(** The consumer's [<-sub.C()]: the oldest buffered event if there is
    one, else the event of the sender waiting at [ch <- ev]; [None]
    while the receive blocks. *)
Definition consumer_recv (s : system V) : option (system V) :=
  match buf (ch s) with
  | ev :: rest =>
      Some {| conn := conn s;
              ch := {| cap := cap (ch s); buf := rest;
                       chan_closed := chan_closed (ch s) |};
              task := task s;
              received := received s ++ [ev]; Close_returns := Close_returns s |}
  | [] =>
      match task s with
      | at_send ev k =>
          Some {| conn := conn s; ch := ch s; task := resume k;
                  received := received s ++ [ev];
                  Close_returns := Close_returns s |}
      | _ => None
      end
  end.

(** [Close()]: write the close message, return the write's error. *)
Definition Close (s : system V) (net : option error) : option (system V) :=
  match WriteMessage (conn s) CloseMessage
          (FormatCloseMessage CloseNormalClosure "") net with
  | None => None
  | Some (err, c') =>
      let result := match err with Some e => Some e | None => None end in
      Some {| conn := c'; ch := ch s; task := task s;
              received := received s;
              Close_returns := Close_returns s ++ [result] |}
  end.

(** What can happen next to a subscription. *)
Inductive action : Type :=
| run_task
| receive
| call_Close (net : option error).

Definition step (a : action) (s : system V) : option (system V) :=
  match a with
  | run_task => task_step s
  | receive => consumer_recv s
  | call_Close net => Close s net
  end.

(** A schedule, run from left to right; [None] when some action of it
    is not possible where it stands. *)
Fixpoint run (sched : list action) (s : system V) : option (system V) :=
  match sched with
  | [] => Some s
  | a :: rest =>
      match step a s with
      | None => None
      | Some s' => run rest s'
      end
  end.

(** The frames of a connection all decode. *)
Definition decodes (r : read_result) : option (Event V) :=
  match r with
  | Message _ msg => ret_val (Unmarshal msg)
  | ReadError _ => None
  end.
(** The channel is as [Subscribe] made it: no capacity, nothing
    buffered, not closed. *)
Definition unbuffered (s : system V) : Prop :=
  cap (ch s) = 0%nat /\ buf (ch s) = [] /\ chan_closed (ch s) = false.

(** The event the goroutine holds, read and decoded but not yet taken by
    the consumer. *)
Definition in_hand (t : pc V) : list (Event V) :=
  match t with
  | at_send ev next_iteration => [ev]
  | _ => []
  end.

(** The goroutine is inside its loop. *)
Definition looping (t : pc V) : Prop :=
  match t with
  | at_read | at_send _ next_iteration => True
  | _ => False
  end.

(** [evs] are the decodings of the frames [rs], one for one. *)
Definition decode_to (rs : list read_result) (evs : list (Event V)) : Prop :=
  Forall2 (fun r ev => decodes r = Some ev) rs evs.

(** Where a subscription stands while it delivers [evs]: what the
    consumer has received, then the event in hand, then the decodings of
    the frames still to be read, make up [evs]. *)
Definition delivering (evs : list (Event V)) (s : system V) : Prop :=
  unbuffered s /\ looping (task s)
  /\ exists todo, decode_to (incoming (conn s)) todo
                  /\ evs = (received s ++ in_hand (task s) ++ todo)%list.

(** Where a subscription stands after a failure: the goroutine waits to
    hand over the error event [ev], or has handed it over and is on its way
    out; [base] is what the consumer had received before. *)
Definition failed (ev : Event V) (base : list (Event V)) (s : system V) : Prop :=
  unbuffered s
  /\ ((task s = at_send ev leave /\ received s = base)
      \/ (received s = (base ++ [ev])%list
          /\ (task s = at_return \/ task s = exited))).

(** The schedule in which the consumer takes each event as soon as the
    goroutine offers it, for [n] frames. *)
Fixpoint lockstep (n : nat) : list action :=
  match n with
  | O => []
  | S n' => run_task :: receive :: lockstep n'
  end.
End Defs.

End Events.

(** ** The log reader's read operation *)

Module LogStream.
Local Open Scope list_scope.

(** What one fetch of the bytes beyond the current offset yields: the
    bytes (none at all for an empty fetch), a transient failure, or a
    failure that is not transient. *)
Inductive fetch_result : Type :=
| Fetched (data : list Byte.byte)
| TransientFailure (err : error)
| PermanentFailure (err : error).

(** The remote side as the reader meets it: the result of the n-th fetch
    issued (at the offset asked for), the answer of the n-th consultation
    of the completion predicate ([true] for terminal), and the state of
    the cancellation signal at the n-th check. *)
Record Remote : Type := {
  fetch : nat -> Z -> fetch_result;
  predicate : nat -> bool + error;
  cancelled : nat -> bool
}.

(** The retry and backoff policy: interval bounds and attempt ceiling. *)
Record Policy : Type := {
  interval_floor : Z;
  interval_ceiling : Z;
  attempt_ceiling : nat
}.

(** The cursor: the read offset, and how many fetches, consultations and
    cancellation checks this reader has made so far. *)
Record Reader : Type := {
  offset : Z;
  fetches : nat;
  consultations : nat;
  checks : nat
}.

(** What the reader did, in order. *)
Inductive io : Type :=
| Fetch (at_offset : Z) (r : fetch_result)
| Consult (answer : bool + error)
| Check (fired : bool)
| Wait (interval : Z).

(** How one read operation ends. *)
Inductive outcome : Type :=
| Bytes (data : list Byte.byte)
| EndOfStream
| Failed (err : error)
| Canceled.

Definition do_fetch (env : Remote) (r : Reader) : fetch_result * Reader :=
  (fetch env (fetches r) (offset r),
   {| offset := offset r; fetches := S (fetches r);
      consultations := consultations r; checks := checks r |}).

Definition do_consult (env : Remote) (r : Reader) : (bool + error) * Reader :=
  (predicate env (consultations r),
   {| offset := offset r; fetches := fetches r;
      consultations := S (consultations r); checks := checks r |}).

Definition do_check (env : Remote) (r : Reader) : bool * Reader :=
  (cancelled env (checks r),
   {| offset := offset r; fetches := fetches r;
      consultations := consultations r; checks := S (checks r) |}).

Definition advance (r : Reader) (data : list Byte.byte) : Reader :=
  {| offset := offset r + Z.of_nat (length data); fetches := fetches r;
     consultations := consultations r; checks := checks r |}.

(** The next interval: doubled, within the policy's bounds. *)
Definition grow (pol : Policy) (interval : Z) : Z :=
  Z.max (interval_floor pol) (Z.min (interval_ceiling pol) (2 * interval)).

(** The pause between two fetches: the signal is checked before the wait
    and before the retry.  [inl] is a reader that goes on, [inr] one that
    was cancelled. *)
Definition pause (env : Remote) (r : Reader) (interval : Z) (tr : list io)
  : (Reader * list io) + (Reader * list io) :=
  let (c1, r1) := do_check env r in
  if c1 then inr (r1, tr ++ [Check true])
  else
    let (c2, r2) := do_check env r1 in
    if c2 then inr (r2, tr ++ [Check false; Wait interval; Check true])
    else inl (r2, tr ++ [Check false; Wait interval; Check false]).

(** Modelled from the spec: the blocking "read next chunk" operation of
    the log reader, whose source file is not among those modelled.  Each
    round issues a fetch beyond the offset.  Bytes advance the offset and
    are returned.  An empty fetch consults the completion predicate: not
    terminal, the reader waits by the backoff policy and retries;
    terminal, it makes exactly one more fetch, and ends the stream if that
    one is empty too, or returns its bytes.  A transient failure is
    retried up to the attempt ceiling, any other failure surfaces at once,
    and the cancellation signal aborts at each wait and retry.  Where the
    specification is silent (the predicate failing, the last fetch
    failing) the failure surfaces.  [fuel] bounds the rounds; [None] means
    the operation is still blocked after that many. *)
Fixpoint read_from (fuel : nat) (env : Remote) (pol : Policy) (r : Reader)
  (attempts : nat) (interval : Z) (tr : list io)
  : option (outcome * Reader * list io) :=
  match fuel with
  | O => None
  | S fuel' =>
      let (res, r1) := do_fetch env r in
      let tr1 := tr ++ [Fetch (offset r) res] in
      match res with
      | Fetched (b :: bs) => Some (Bytes (b :: bs), advance r1 (b :: bs), tr1)
      | PermanentFailure err => Some (Failed err, r1, tr1)
      | TransientFailure err =>
          if (attempt_ceiling pol <=? S attempts)%nat then Some (Failed err, r1, tr1)
          else
            match pause env r1 interval tr1 with
            | inr (r2, tr2) => Some (Canceled, r2, tr2)
            | inl (r2, tr2) =>
                read_from fuel' env pol r2 (S attempts) (grow pol interval) tr2
            end
      | Fetched [] =>
          let (ans, r2) := do_consult env r1 in
          let tr2 := tr1 ++ [Consult ans] in
          match ans with
          | inr err => Some (Failed err, r2, tr2)
          | inl false =>
              match pause env r2 interval tr2 with
              | inr (r3, tr3) => Some (Canceled, r3, tr3)
              | inl (r3, tr3) =>
                  read_from fuel' env pol r3 attempts (grow pol interval) tr3
              end
          | inl true =>
              let (last, r3) := do_fetch env r2 in
              let tr3 := tr2 ++ [Fetch (offset r2) last] in
              match last with
              | Fetched [] => Some (EndOfStream, r3, tr3)
              | Fetched (b :: bs) => Some (Bytes (b :: bs), advance r3 (b :: bs), tr3)
              | TransientFailure err => Some (Failed err, r3, tr3)
              | PermanentFailure err => Some (Failed err, r3, tr3)
              end
          end
      end
  end.

(** Modelled from the spec: one invocation of the read operation, from
    the policy's floor interval and no attempt spent. *)
Definition Read (fuel : nat) (env : Remote) (pol : Policy) (r : Reader)
  : option (outcome * Reader * list io) :=
  read_from fuel env pol r 0 (interval_floor pol) [].

End LogStream.

(** ** Concrete collaborators, for running the operations *)

Module Fixtures.
Import Types Transport.

(** *** A service that logs the requests it is sent *)

(** The world: the requests issued so far, newest first. *)
Definition Log : Type := list string.

#[export] Instance plain_url : NetURL string :=
  {| QueryEscape := fun s => s; Parse := fun s => inl s |}.

#[export] Instance run_sentinels : Runs.Sentinels :=
  {| Runs.ErrInvalidRunID := errors_New "invalid value for run ID";
     Runs.ErrInvalidWorkspaceID := errors_New "invalid value for workspace ID" |}.

(** The plan the service holds: running until a first request has been
    served, finished afterwards. *)
Definition served_plan (w : Log) : Plan :=
  {| ID := "plan-1"; HasChanges := true;
     LogReadURL := "https://archivist.local/plan-1";
     ResourceAdditions := 1; ResourceChanges := 0; ResourceDestructions := 0;
     Status := match w with [] => PlanRunning | _ :: _ => PlanFinished end |}.

Definition logging_client : Client Log unit string unit unit unit :=
  {| newRequest := fun method u _ w => (inl (method ++ " " ++ u), w);
     do := fun t _ req w =>
       (match t as t0 return decoded unit unit t0 + error with
        | into_Plan => inl (served_plan w)
        | into_Run => inl tt
        | into_RunList => inl tt
        | into_Buffer => inl []
        | into_nil => inl tt
        end, req :: w) |}.

Definition the_plans : Plans.plans Log unit string unit unit unit :=
  {| Plans.client := logging_client |}.

Definition the_runs : Runs.runs Log unit string unit unit unit :=
  {| Runs.client := logging_client |}.

(** *** An event endpoint *)

Import Events.

Definition event_of (t : EventType) : Event unit :=
  {| Event_Type := t; Event_Payload := payload_nil |}.

(** A decoder for one-byte frames. *)
Definition toy_Unmarshal (msg : list Byte.byte) : Event unit + error :=
  match msg with
  | [Byte.x01] => inl (event_of EventOrganizationCreated)
  | [Byte.x02] => inl (event_of EventWorkspaceCreated)
  | [Byte.x03] => inl (event_of EventRunCreated)
  | [Byte.x04] => inl (event_of EventPlanQueued)
  | [Byte.x05] => inl (event_of EventRunPlanned)
  | _ => inr (errors_New "invalid character")
  end.

(** Five frames: organization created, workspace created, run created,
    plan queued, run planned. *)
Definition five_frames : list (Z * list Byte.byte) :=
  [ (1%Z, [Byte.x01]); (1%Z, [Byte.x02]); (1%Z, [Byte.x03]);
    (1%Z, [Byte.x04]); (1%Z, [Byte.x05]) ].

Definition five_events : list (Event unit) :=
  [ event_of EventOrganizationCreated; event_of EventWorkspaceCreated;
    event_of EventRunCreated; event_of EventPlanQueued;
    event_of EventRunPlanned ].

Definition to_Message (f : Z * list Byte.byte) : read_result :=
  Message (fst f) (snd f).

(** The host [tfe.local] pushes the five frames; [bye.local] pushes one
    frame and then closes its side; [bad.local] pushes a frame that does
    not decode; every other host refuses the connection. *)
Definition toy_Dial (u : string) : Conn + error :=
  if String.eqb u "wss://tfe.local/events" then
    inl {| incoming := map to_Message five_frames; outgoing := []; closed := false |}
  else if String.eqb u "wss://bye.local/events" then
    inl {| incoming := [ Message 1 [Byte.x03];
                         ReadError (errors_New "websocket: close 1000 (normal)") ];
           outgoing := []; closed := false |}
  else if String.eqb u "wss://bad.local/events" then
    inl {| incoming := [ Message 1 [Byte.x7b] ]; outgoing := []; closed := false |}
  else inr (errors_New "dial tcp: connection refused").

#[export] Instance toy_imports : Imports unit :=
  {| URL_String := fun scheme host path => scheme ++ "://" ++ host ++ path;
     Dial := toy_Dial;
     CloseMessage := 8;
     CloseNormalClosure := 1000;
     FormatCloseMessage := fun _ _ => [Byte.x03; Byte.xe8];
     Unmarshal := toy_Unmarshal |}.

Definition tfe_local : events := {| client_baseURL_Host := "tfe.local" |}.
Definition bye_local : events := {| client_baseURL_Host := "bye.local" |}.
Definition bad_local : events := {| client_baseURL_Host := "bad.local" |}.
Definition nowhere : events := {| client_baseURL_Host := "nowhere.local" |}.

(** The running subscription [Subscribe] returns, or a stopped one on
    a host that refuses. *)
Definition subscribed (e : events) : system unit :=
  match Subscribe e "dummy-id" with
  | inl s => s
  | inr _ => {| conn := {| incoming := []; outgoing := []; closed := true |};
                ch := make_chan 0; task := exited;
                received := []; Close_returns := [] |}
  end.

(** *** A log whose job ends at the fourth status check *)

Import LogStream.

(** Every fetch is empty; the predicate answers not terminal three times,
    then terminal; the signal never fires. *)
Definition silent_job : Remote :=
  {| fetch := fun _ _ => Fetched [];
     predicate := fun n => inl (3 <=? n)%nat;
     cancelled := fun _ => false |}.

(** A job that never ends and never logs. *)
Definition endless_job : Remote :=
  {| fetch := fun _ _ => Fetched [];
     predicate := fun _ => inl false;
     cancelled := fun _ => false |}.

Definition half_second : Policy :=
  {| interval_floor := 500; interval_ceiling := 2000; attempt_ceiling := 3 |}.

Definition fresh_reader : Reader :=
  {| offset := 0; fetches := 0; consultations := 0; checks := 0 |}.

End Fixtures.

(** ** Regular expressions, as package [regexp] matches them *)

Module Regexp.
Import Validation.

(** The syntax the two patterns of the validation code need. *)
Inductive regex : Type :=
| Void
| Eps
| Chars (cls : list class_item)
| Seq (r1 r2 : regex)
| Alt (r1 r2 : regex)
| Star (r : regex).

(** [r+] *)
Definition Plus (r : regex) : regex := Seq r (Star r).

Fixpoint nullable (r : regex) : bool :=
  match r with
  | Void => false
  | Eps => true
  | Chars _ => false
  | Seq r1 r2 => nullable r1 && nullable r2
  | Alt r1 r2 => nullable r1 || nullable r2
  | Star _ => true
  end.

(** What is left of [r] once the character [c] has been read. *)
Fixpoint deriv (c : ascii) (r : regex) : regex :=
  match r with
  | Void => Void
  | Eps => Void
  | Chars cls => if in_class cls c then Eps else Void
  | Seq r1 r2 =>
      if nullable r1 then Alt (Seq (deriv c r1) r2) (deriv c r2)
      else Seq (deriv c r1) r2
  | Alt r1 r2 => Alt (deriv c r1) (deriv c r2)
  | Star r1 => Seq (deriv c r1) (Star r1)
  end.

(** [MatchString] of the pattern [^r$]: the whole text is read. *)
Fixpoint matches (r : regex) (s : string) : bool :=
  match s with
  | EmptyString => nullable r
  | String c rest => matches (deriv c r) rest
  end.

(** The texts a pattern stands for. *)
Inductive lang : regex -> string -> Prop :=
| lang_eps : lang Eps ""
| lang_chars (cls : list class_item) (c : ascii) :
    in_class cls c = true -> lang (Chars cls) (String c "")
| lang_seq (r1 r2 : regex) (s1 s2 : string) :
    lang r1 s1 -> lang r2 s2 -> lang (Seq r1 r2) (s1 ++ s2)
| lang_alt_l (r1 r2 : regex) (s : string) : lang r1 s -> lang (Alt r1 r2) s
| lang_alt_r (r1 r2 : regex) (s : string) : lang r2 s -> lang (Alt r1 r2) s
| lang_star_nil (r : regex) : lang (Star r) ""
| lang_star_cons (r : regex) (s1 s2 : string) :
    lang r s1 -> lang (Star r) s2 -> lang (Star r) (s1 ++ s2).

Definition digit : regex := Chars [Range "0" "9"].
Definition dot : regex := Chars [Lit "."].

(** [reStringID], as a pattern: [^[a-zA-Z0-9\-\._]+$]. *)
Definition reStringID_pattern : regex := Plus (Chars reStringID).

(** [reSemanticVersion = regexp.MustCompile(`^[0-9]+\.[0-9]+\.[0-9]+$`)] *)
Definition reSemanticVersion : regex :=
  Seq (Plus digit) (Seq dot (Seq (Plus digit) (Seq dot (Plus digit)))).

(** [validSemanticVersion]: a semantic version (major.minor.patch). *)
Definition validSemanticVersion (v : string) : bool :=
  matches reSemanticVersion v.

(** A non-empty run of decimal digits. *)
Definition digits (s : string) : Prop :=
  s <> "" /\ all_in_class [Range "0" "9"] s = true.

(** The characters of an identifier, by their codes: letters, digits,
    hyphen, period, underscore. *)
Definition id_char (c : ascii) : Prop :=
  let n := nat_of_ascii c in
  (97 <= n <= 122)%nat \/ (65 <= n <= 90)%nat \/ (48 <= n <= 57)%nat
  \/ n = 45%nat \/ n = 46%nat \/ n = 95%nat.

End Regexp.

(** ** The stream a subscription delivers *)

Module EventStream.
Import Events.

Section Defs.
Context {V : Type} {imports : Imports V}.

(** The event sent when [ReadMessage] fails (line 73). *)
Definition read_error_event (err : error) : Event V :=
  {| Event_Type := EventError;
     Event_Payload :=
       payload_string ("websocket read error: " ++ Error err ++ newline) |}.

(** The event sent when [json.Unmarshal] fails (line 79). *)
Definition decode_error_event (err : error) : Event V :=
  {| Event_Type := EventError;
     Event_Payload :=
       payload_string ("websocket decode error: " ++ Error err ++ newline) |}.

(** The events of a connection whose reads will return [rs]: the decoding
    of each frame up to the first read or decoding that fails, then the
    error event of that failure, and nothing of what follows it. *)
Fixpoint expected (rs : list read_result) : list (Event V) :=
  match rs with
  | [] => []
  | ReadError err :: _ => [read_error_event err]
  | Message _ msg :: rest =>
      match Unmarshal msg with
      | inl ev => ev :: expected rest
      | inr err => [decode_error_event err]
      end
  end.

(** The events still to come where a subscription stands. *)
Definition pending (s : system V) : list (Event V) :=
  match task s with
  | at_read => expected (incoming (conn s))
  | at_send ev next_iteration => ev :: expected (incoming (conn s))
  | at_send ev leave => [ev]
  | at_return => []
  | exited => []
  end.

(** The goroutine is past the loop only with an error event handed over
    or about to be. *)
Definition leaving (s : system V) : Prop :=
  match task s with
  | at_read => True
  | at_send ev next_iteration => True
  | at_send ev leave => Event_Type ev = EventError
  | at_return | exited =>
      exists evs ev, received s = (evs ++ [ev])%list /\ Event_Type ev = EventError
  end.

(** The close message [Close()] writes. *)
Definition close_frame : frame :=
  {| frame_type := CloseMessage;
     frame_data := FormatCloseMessage CloseNormalClosure "" |}.
End Defs.

End EventStream.

(** ** More collaborators, for running the operations *)

Module MoreFixtures.
Import Types Transport.

(** A client that cannot build requests: [newRequest] fails, after noting
    in the world the path it was asked for. *)
Definition refusing_client : Client Fixtures.Log unit string unit unit unit :=
  {| newRequest := fun method u _ w =>
       (inr (errors_New "cannot build request"), (method ++ " " ++ u) :: w);
     do := fun t _ req w =>
       (match t as t0 return decoded unit unit t0 + error with
        | into_Plan => inr (errors_New "unreachable")
        | into_Run => inr (errors_New "unreachable")
        | into_RunList => inr (errors_New "unreachable")
        | into_Buffer => inr (errors_New "unreachable")
        | into_nil => inr (errors_New "unreachable")
        end, w) |}.

Definition refused_runs : Runs.runs Fixtures.Log unit string unit unit unit :=
  {| Runs.client := refusing_client |}.

(** A service whose plan carries no identifier. *)
Definition anonymous_plan : Plan :=
  {| ID := ""; HasChanges := false;
     LogReadURL := "https://archivist.local/plan-1";
     ResourceAdditions := 0; ResourceChanges := 0; ResourceDestructions := 0;
     Status := PlanRunning |}.

Definition anonymous_client : Client Fixtures.Log unit string unit unit unit :=
  {| newRequest := fun method u _ w => (inl (method ++ " " ++ u), w);
     do := fun t _ req w =>
       (match t as t0 return decoded unit unit t0 + error with
        | into_Plan => inl anonymous_plan
        | into_Run => inl tt
        | into_RunList => inl tt
        | into_Buffer => inl []
        | into_nil => inl tt
        end, req :: w) |}.

Definition anonymous_plans : Plans.plans Fixtures.Log unit string unit unit unit :=
  {| Plans.client := anonymous_client |}.

End MoreFixtures.

(** ** The client, for any payload and response shapes *)

Module Crud.
Import Transport.

(** [Client] as in [Transport], with the payloads [Body] handed to
    [newRequest] and the shapes [Decoded] that [do] fills left open, for
    the operations on teams, policy sets and run creation. *)
Record Client {W Ctx Req Body Target : Type} {Decoded : Target -> Type} : Type := {
  newRequest : string -> string -> Body -> M W (Req + error);
  do : forall t : Target, Ctx -> Req -> M W (Decoded t + error)
}.
Arguments Client W Ctx Req Body Target Decoded : clear implicits.

(** The sentinel errors these operations return; like those of the run
    operations they are declared outside the modelled files. *)
Class Sentinels : Type := {
  ErrInvalidOrg : error;
  ErrRequiredName : error;
  ErrInvalidName : error
}.

(** A Go slice: [None] is the nil slice. *)
Definition slice (A : Type) : Type := option (list A).

End Crud.

(** ** team.go *)

Module Teams.
Import Validation Transport Crud.
Local Open Scope go_scope.

(** The organization access options of a team. *)
Record OrganizationAccessOptions : Type := {
  ManagePolicies : option bool;
  ManagePolicyOverrides : option bool;
  ManageWorkspaces : option bool;
  ManageVCSSettings : option bool
}.

Record TeamListOptions {ListOptions : Type} : Type := {
  TeamListOptions_ListOptions : ListOptions;
  TeamListOptions_Include : string
}.
Arguments TeamListOptions ListOptions : clear implicits.

Record TeamCreateOptions : Type := {
  TeamCreateOptions_Type : string;
  TeamCreateOptions_Name : option string;
  TeamCreateOptions_OrganizationAccess : option OrganizationAccessOptions;
  TeamCreateOptions_Visibility : option string
}.

Record TeamUpdateOptions : Type := {
  TeamUpdateOptions_Type : string;
  TeamUpdateOptions_Name : option string;
  TeamUpdateOptions_OrganizationAccess : option OrganizationAccessOptions;
  TeamUpdateOptions_Visibility : option string
}.

Inductive body {ListOptions : Type} : Type :=
| body_nil
| body_TeamListOptions (o : TeamListOptions ListOptions)
| body_TeamCreateOptions (o : TeamCreateOptions)
| body_TeamUpdateOptions (o : TeamUpdateOptions).
Arguments body ListOptions : clear implicits.

Inductive target : Type := into_Team | into_TeamList | into_nil.

Definition decoded (Team TeamList : Type) (t : target) : Type :=
  match t with
  | into_Team => Team
  | into_TeamList => TeamList
  | into_nil => unit
  end.

Section Defs.
Context {W Ctx Req ListOptions Team TeamList URL : Type}.
Context {net_url : NetURL URL} {sentinels : Sentinels}.

(** [teams] implements [Teams]. *)
Record teams : Type := {
  client : Client W Ctx Req (body ListOptions) target (decoded Team TeamList)
}.

(** [TeamCreateOptions.valid] *)
Definition TeamCreateOptions_valid (o : TeamCreateOptions) : option error :=
  if negb (validString (TeamCreateOptions_Name o)) then Some ErrRequiredName
  else None.

(** List all the teams of the given organization. *)
Definition List (s : teams) (ctx : Ctx) (organization : string)
  (options : TeamListOptions ListOptions) : M W (TeamList + error) :=
  if negb (validStringID (Some organization)) then
    ret (inr ErrInvalidOrg)
  else
    let u := "organizations/" ++ QueryEscape organization ++ "/teams" in
    r <- newRequest (client s) "GET" u (body_TeamListOptions options) ;;
    match r with
    | inr err => ret (inr err)
    | inl req =>
        r' <- do (client s) into_TeamList ctx req ;;
        match r' with
        | inr err => ret (inr err)
        | inl tl => ret (inl tl)
        end
    end.

(** Create a new team with the given options. *)
Definition Create (s : teams) (ctx : Ctx) (organization : string)
  (options : TeamCreateOptions) : M W (Team + error) :=
  if negb (validStringID (Some organization)) then
    ret (inr ErrInvalidOrg)
  else
    match TeamCreateOptions_valid options with
    | Some err => ret (inr err)
    | None =>
        let u := "organizations/" ++ QueryEscape organization ++ "/teams" in
        r <- newRequest (client s) "POST" u (body_TeamCreateOptions options) ;;
        match r with
        | inr err => ret (inr err)
        | inl req =>
            r' <- do (client s) into_Team ctx req ;;
            match r' with
            | inr err => ret (inr err)
            | inl t => ret (inl t)
            end
        end
    end.

(** Read a single team by its ID. *)
Definition Read (s : teams) (ctx : Ctx) (teamID : string) : M W (Team + error) :=
  if negb (validStringID (Some teamID)) then
    ret (inr (errors_New "invalid value for team ID"))
  else
    let u := "teams/" ++ QueryEscape teamID in
    r <- newRequest (client s) "GET" u body_nil ;;
    match r with
    | inr err => ret (inr err)
    | inl req =>
        r' <- do (client s) into_Team ctx req ;;
        match r' with
        | inr err => ret (inr err)
        | inl t => ret (inl t)
        end
    end.

(** Update a team by its ID. *)
Definition Update (s : teams) (ctx : Ctx) (teamID : string)
  (options : TeamUpdateOptions) : M W (Team + error) :=
  if negb (validStringID (Some teamID)) then
    ret (inr (errors_New "invalid value for team ID"))
  else
    let u := "teams/" ++ QueryEscape teamID in
    r <- newRequest (client s) "PATCH" u (body_TeamUpdateOptions options) ;;
    match r with
    | inr err => ret (inr err)
    | inl req =>
        r' <- do (client s) into_Team ctx req ;;
        match r' with
        | inr err => ret (inr err)
        | inl t => ret (inl t)
        end
    end.

(** Delete a team by its ID. *)
Definition Delete (s : teams) (ctx : Ctx) (teamID : string) : M W (option error) :=
  if negb (validStringID (Some teamID)) then
    ret (Some (errors_New "invalid value for team ID"))
  else
    let u := "teams/" ++ QueryEscape teamID in
    r <- newRequest (client s) "DELETE" u body_nil ;;
    match r with
    | inr err => ret (Some err)
    | inl req =>
        r' <- do (client s) into_nil ctx req ;;
        ret (ret_err r')
    end.
End Defs.

Arguments teams W Ctx Req ListOptions Team TeamList : clear implicits.

End Teams.

(** ** Policy set operations *)

Module PolicySets.
Import Validation Transport Crud.
Local Open Scope go_scope.

Record PolicySetListOptions {ListOptions : Type} : Type := {
  PolicySetListOptions_ListOptions : ListOptions;
  PolicySetListOptions_Search : option string
}.
Arguments PolicySetListOptions ListOptions : clear implicits.

Record PolicySetCreateOptions {Policy VCSRepoOptions Workspace : Type} : Type := {
  PolicySetCreateOptions_Type : string;
  PolicySetCreateOptions_Name : option string;
  PolicySetCreateOptions_Description : option string;
  PolicySetCreateOptions_Global : option bool;
  PolicySetCreateOptions_PoliciesPath : option string;
  PolicySetCreateOptions_Policies : slice Policy;
  PolicySetCreateOptions_VCSRepo : option VCSRepoOptions;
  PolicySetCreateOptions_Workspaces : slice Workspace
}.
Arguments PolicySetCreateOptions Policy VCSRepoOptions Workspace : clear implicits.

Record PolicySetReadOptions : Type := { PolicySetReadOptions_Include : string }.

Record PolicySetUpdateOptions {VCSRepoOptions : Type} : Type := {
  PolicySetUpdateOptions_Type : string;
  PolicySetUpdateOptions_Name : option string;
  PolicySetUpdateOptions_Description : option string;
  PolicySetUpdateOptions_Global : option bool;
  PolicySetUpdateOptions_PoliciesPath : option string;
  PolicySetUpdateOptions_VCSRepo : option VCSRepoOptions
}.
Arguments PolicySetUpdateOptions VCSRepoOptions : clear implicits.

Record PolicySetAddPoliciesOptions {Policy : Type} : Type :=
  { PolicySetAddPoliciesOptions_Policies : slice Policy }.
Arguments PolicySetAddPoliciesOptions Policy : clear implicits.

Record PolicySetRemovePoliciesOptions {Policy : Type} : Type :=
  { PolicySetRemovePoliciesOptions_Policies : slice Policy }.
Arguments PolicySetRemovePoliciesOptions Policy : clear implicits.

Record PolicySetAddWorkspacesOptions {Workspace : Type} : Type :=
  { PolicySetAddWorkspacesOptions_Workspaces : slice Workspace }.
Arguments PolicySetAddWorkspacesOptions Workspace : clear implicits.

Record PolicySetRemoveWorkspacesOptions {Workspace : Type} : Type :=
  { PolicySetRemoveWorkspacesOptions_Workspaces : slice Workspace }.
Arguments PolicySetRemoveWorkspacesOptions Workspace : clear implicits.

Inductive body {ListOptions Policy VCSRepoOptions Workspace : Type} : Type :=
| body_nil
| body_PolicySetListOptions (o : PolicySetListOptions ListOptions)
| body_PolicySetCreateOptions
    (o : PolicySetCreateOptions Policy VCSRepoOptions Workspace)
| body_PolicySetReadOptions (o : option PolicySetReadOptions)
| body_PolicySetUpdateOptions (o : PolicySetUpdateOptions VCSRepoOptions)
| body_Policies (l : slice Policy)
| body_Workspaces (l : slice Workspace).
Arguments body ListOptions Policy VCSRepoOptions Workspace : clear implicits.

Inductive target : Type := into_PolicySet | into_PolicySetList | into_nil.

Definition decoded (PolicySet PolicySetList : Type) (t : target) : Type :=
  match t with
  | into_PolicySet => PolicySet
  | into_PolicySetList => PolicySetList
  | into_nil => unit
  end.

Section Defs.
Context {W Ctx Req ListOptions Policy VCSRepoOptions Workspace : Type}.
Context {PolicySet PolicySetList URL : Type}.
Context {net_url : NetURL URL} {sentinels : Sentinels}.

(** [policySets] implements [PolicySets]. *)
Record policySets : Type := {
  client : Client W Ctx Req (body ListOptions Policy VCSRepoOptions Workspace)
             target (decoded PolicySet PolicySetList)
}.

(** [PolicySetCreateOptions.valid] *)
Definition PolicySetCreateOptions_valid
  (o : PolicySetCreateOptions Policy VCSRepoOptions Workspace) : option error :=
  if negb (validString (PolicySetCreateOptions_Name o)) then Some ErrRequiredName
  else if negb (validStringID (PolicySetCreateOptions_Name o)) then Some ErrInvalidName
  else None.

(** [PolicySetUpdateOptions.valid] *)
Definition PolicySetUpdateOptions_valid
  (o : PolicySetUpdateOptions VCSRepoOptions) : option error :=
  match PolicySetUpdateOptions_Name o with
  | Some _ =>
      if negb (validStringID (PolicySetUpdateOptions_Name o)) then Some ErrInvalidName
      else None
  | None => None
  end.

(** [PolicySetAddPoliciesOptions.valid] *)
Definition PolicySetAddPoliciesOptions_valid
  (o : PolicySetAddPoliciesOptions Policy) : option error :=
  match PolicySetAddPoliciesOptions_Policies o with
  | None => Some (errors_New "policies is required")
  | Some l =>
      if (length l =? 0)%nat then Some (errors_New "must provide at least one policy")
      else None
  end.

(** [PolicySetRemovePoliciesOptions.valid] *)
Definition PolicySetRemovePoliciesOptions_valid
  (o : PolicySetRemovePoliciesOptions Policy) : option error :=
  match PolicySetRemovePoliciesOptions_Policies o with
  | None => Some (errors_New "policies is required")
  | Some l =>
      if (length l =? 0)%nat then Some (errors_New "must provide at least one policy")
      else None
  end.

(** [PolicySetAddWorkspacesOptions.valid] *)
Definition PolicySetAddWorkspacesOptions_valid
  (o : PolicySetAddWorkspacesOptions Workspace) : option error :=
  match PolicySetAddWorkspacesOptions_Workspaces o with
  | None => Some (errors_New "workspaces is required")
  | Some l =>
      if (length l =? 0)%nat then
        Some (errors_New "must provide at least one workspace")
      else None
  end.

(** [PolicySetRemoveWorkspacesOptions.valid] *)
Definition PolicySetRemoveWorkspacesOptions_valid
  (o : PolicySetRemoveWorkspacesOptions Workspace) : option error :=
  match PolicySetRemoveWorkspacesOptions_Workspaces o with
  | None => Some (errors_New "workspaces is required")
  | Some l =>
      if (length l =? 0)%nat then
        Some (errors_New "must provide at least one workspace")
      else None
  end.

(** List all the policies for a given organization. *)
Definition List (s : policySets) (ctx : Ctx) (organization : string)
  (options : PolicySetListOptions ListOptions) : M W (PolicySetList + error) :=
  if negb (validStringID (Some organization)) then
    ret (inr ErrInvalidOrg)
  else
    let u := "organizations/" ++ QueryEscape organization ++ "/policy-sets" in
    r <- newRequest (client s) "GET" u (body_PolicySetListOptions options) ;;
    match r with
    | inr err => ret (inr err)
    | inl req =>
        r' <- do (client s) into_PolicySetList ctx req ;;
        match r' with
        | inr err => ret (inr err)
        | inl psl => ret (inl psl)
        end
    end.

(** Create a policy set and associate it with an organization. *)
Definition Create (s : policySets) (ctx : Ctx) (organization : string)
  (options : PolicySetCreateOptions Policy VCSRepoOptions Workspace)
  : M W (PolicySet + error) :=
  if negb (validStringID (Some organization)) then
    ret (inr ErrInvalidOrg)
  else
    match PolicySetCreateOptions_valid options with
    | Some err => ret (inr err)
    | None =>
        let u := "organizations/" ++ QueryEscape organization ++ "/policy-sets" in
        r <- newRequest (client s) "POST" u (body_PolicySetCreateOptions options) ;;
        match r with
        | inr err => ret (inr err)
        | inl req =>
            r' <- do (client s) into_PolicySet ctx req ;;
            match r' with
            | inr err => ret (inr err)
            | inl ps => ret (inl ps)
            end
        end
    end.

(** ReadWithOptions reads a policy by its ID using the options supplied. *)
Definition ReadWithOptions (s : policySets) (ctx : Ctx) (policySetID : string)
  (options : option PolicySetReadOptions) : M W (PolicySet + error) :=
  if negb (validStringID (Some policySetID)) then
    ret (inr (errors_New "invalid value for policy set ID"))
  else
    let u := "policy-sets/" ++ QueryEscape policySetID in
    r <- newRequest (client s) "GET" u (body_PolicySetReadOptions options) ;;
    match r with
    | inr err => ret (inr err)
    | inl req =>
        r' <- do (client s) into_PolicySet ctx req ;;
        match r' with
        | inr err => ret (inr err)
        | inl ps => ret (inl ps)
        end
    end.

(** Read a policy set by its ID. *)
Definition Read (s : policySets) (ctx : Ctx) (policySetID : string)
  : M W (PolicySet + error) :=
  ReadWithOptions s ctx policySetID None.

(** Update an existing policy set. *)
Definition Update (s : policySets) (ctx : Ctx) (policySetID : string)
  (options : PolicySetUpdateOptions VCSRepoOptions) : M W (PolicySet + error) :=
  if negb (validStringID (Some policySetID)) then
    ret (inr (errors_New "invalid value for policy set ID"))
  else
    match PolicySetUpdateOptions_valid options with
    | Some err => ret (inr err)
    | None =>
        let u := "policy-sets/" ++ QueryEscape policySetID in
        r <- newRequest (client s) "PATCH" u (body_PolicySetUpdateOptions options) ;;
        match r with
        | inr err => ret (inr err)
        | inl req =>
            r' <- do (client s) into_PolicySet ctx req ;;
            match r' with
            | inr err => ret (inr err)
            | inl ps => ret (inl ps)
            end
        end
    end.

(** Add policies to a policy set. *)
Definition AddPolicies (s : policySets) (ctx : Ctx) (policySetID : string)
  (options : PolicySetAddPoliciesOptions Policy) : M W (option error) :=
  if negb (validStringID (Some policySetID)) then
    ret (Some (errors_New "invalid value for policy set ID"))
  else
    match PolicySetAddPoliciesOptions_valid options with
    | Some err => ret (Some err)
    | None =>
        let u := "policy-sets/" ++ QueryEscape policySetID
                 ++ "/relationships/policies" in
        r <- newRequest (client s) "POST" u
               (body_Policies (PolicySetAddPoliciesOptions_Policies options)) ;;
        match r with
        | inr err => ret (Some err)
        | inl req =>
            r' <- do (client s) into_nil ctx req ;;
            ret (ret_err r')
        end
    end.

(** Remove policies from a policy set. *)
Definition RemovePolicies (s : policySets) (ctx : Ctx) (policySetID : string)
  (options : PolicySetRemovePoliciesOptions Policy) : M W (option error) :=
  if negb (validStringID (Some policySetID)) then
    ret (Some (errors_New "invalid value for policy set ID"))
  else
    match PolicySetRemovePoliciesOptions_valid options with
    | Some err => ret (Some err)
    | None =>
        let u := "policy-sets/" ++ QueryEscape policySetID
                 ++ "/relationships/policies" in
        r <- newRequest (client s) "DELETE" u
               (body_Policies (PolicySetRemovePoliciesOptions_Policies options)) ;;
        match r with
        | inr err => ret (Some err)
        | inl req =>
            r' <- do (client s) into_nil ctx req ;;
            ret (ret_err r')
        end
    end.

(** Add workspaces to a policy set. *)
Definition AddWorkspaces (s : policySets) (ctx : Ctx) (policySetID : string)
  (options : PolicySetAddWorkspacesOptions Workspace) : M W (option error) :=
  if negb (validStringID (Some policySetID)) then
    ret (Some (errors_New "invalid value for policy set ID"))
  else
    match PolicySetAddWorkspacesOptions_valid options with
    | Some err => ret (Some err)
    | None =>
        let u := "policy-sets/" ++ QueryEscape policySetID
                 ++ "/relationships/workspaces" in
        r <- newRequest (client s) "POST" u
               (body_Workspaces (PolicySetAddWorkspacesOptions_Workspaces options)) ;;
        match r with
        | inr err => ret (Some err)
        | inl req =>
            r' <- do (client s) into_nil ctx req ;;
            ret (ret_err r')
        end
    end.

(** Remove workspaces from a policy set. *)
Definition RemoveWorkspaces (s : policySets) (ctx : Ctx) (policySetID : string)
  (options : PolicySetRemoveWorkspacesOptions Workspace) : M W (option error) :=
  if negb (validStringID (Some policySetID)) then
    ret (Some (errors_New "invalid value for policy set ID"))
  else
    match PolicySetRemoveWorkspacesOptions_valid options with
    | Some err => ret (Some err)
    | None =>
        let u := "policy-sets/" ++ QueryEscape policySetID
                 ++ "/relationships/workspaces" in
        r <- newRequest (client s) "DELETE" u
               (body_Workspaces (PolicySetRemoveWorkspacesOptions_Workspaces options)) ;;
        match r with
        | inr err => ret (Some err)
        | inl req =>
            r' <- do (client s) into_nil ctx req ;;
            ret (ret_err r')
        end
    end.

(** Delete a policy set by its ID. *)
Definition Delete (s : policySets) (ctx : Ctx) (policySetID : string)
  : M W (option error) :=
  if negb (validStringID (Some policySetID)) then
    ret (Some (errors_New "invalid value for policy set ID"))
  else
    let u := "policy-sets/" ++ QueryEscape policySetID in
    r <- newRequest (client s) "DELETE" u body_nil ;;
    match r with
    | inr err => ret (Some err)
    | inl req =>
        r' <- do (client s) into_nil ctx req ;;
        ret (ret_err r')
    end.
End Defs.

Arguments policySets W Ctx Req ListOptions Policy VCSRepoOptions Workspace
  PolicySet PolicySetList : clear implicits.

End PolicySets.

(** ** Run creation *)

Module RunCreation.
Import Validation Transport Crud.
Local Open Scope go_scope.

(** [RunCreateOptions]; the configuration version and the workspace are
    resources declared elsewhere. *)
Record RunCreateOptions {ConfigurationVersion Workspace : Type} : Type := {
  RunCreateOptions_Type : string;
  RunCreateOptions_IsDestroy : option bool;
  RunCreateOptions_Refresh : option bool;
  RunCreateOptions_RefreshOnly : option bool;
  RunCreateOptions_Message : option string;
  RunCreateOptions_ConfigurationVersion : option ConfigurationVersion;
  RunCreateOptions_Workspace : option Workspace;
  RunCreateOptions_TargetAddrs : slice string;
  RunCreateOptions_ReplaceAddrs : slice string
}.
Arguments RunCreateOptions ConfigurationVersion Workspace : clear implicits.

Inductive target : Type := into_Run.

Definition decoded (Run : Type) (t : target) : Type :=
  match t with into_Run => Run end.

Section Defs.
Context {W Ctx Req ConfigurationVersion Workspace Run : Type}.

(** [runs], with the payload of [Create]. *)
Record runs : Type := {
  client : Client W Ctx Req (RunCreateOptions ConfigurationVersion Workspace)
             target (decoded Run)
}.

(** [RunCreateOptions.valid] *)
Definition RunCreateOptions_valid
  (o : RunCreateOptions ConfigurationVersion Workspace) : option error :=
  match RunCreateOptions_Workspace o with
  | None => Some (errors_New "workspace is required")
  | Some _ => None
  end.

(** Create a new run with the given options. *)
Definition Create (s : runs) (ctx : Ctx)
  (options : RunCreateOptions ConfigurationVersion Workspace) : M W (Run + error) :=
  match RunCreateOptions_valid options with
  | Some err => ret (inr err)
  | None =>
      r <- newRequest (client s) "POST" "runs" options ;;
      match r with
      | inr err => ret (inr err)
      | inl req =>
          r' <- do (client s) into_Run ctx req ;;
          match r' with
          | inr err => ret (inr err)
          | inl run => ret (inl run)
          end
      end
  end.
End Defs.

Arguments runs W Ctx Req ConfigurationVersion Workspace Run : clear implicits.

End RunCreation.

(** ** workspace.go *)

Module Workspaces.
Import Transport Crud.
Local Open Scope go_scope.

(** [Workspace] encapsulates all data fields of a workspace. *)
Record Workspace {VCSRepo : Type} : Type := {
  Workspace_ID : option string;
  Workspace_Name : option string;
  Workspace_CreatedAt : option string;
  Workspace_AutoApply : option bool;
  Workspace_WorkingDirectory : option string;
  Workspace_TerraformVersion : option string;
  Workspace_VCSRepo : option VCSRepo
}.
Arguments Workspace VCSRepo : clear implicits.

(** [type jsonapiWorkspace struct{ *Workspace }] *)
Record jsonapiWorkspace {VCSRepo : Type} : Type :=
  { Workspace_ptr : option (Workspace VCSRepo) }.
Arguments jsonapiWorkspace VCSRepo : clear implicits.

(** What the [output] field of a request points to. *)
Inductive output_kind : Type :=
| no_output
| output_jsonapiWorkspace
| output_jsonapiWorkspaces.

(** The fields of [request] the file sets. *)
Record request {VCSRepo : Type} : Type := {
  method : string;
  path : string;
  input : option (jsonapiWorkspace VCSRepo);
  output : output_kind
}.
Arguments request VCSRepo : clear implicits.

Definition filled (VCSRepo : Type) (k : output_kind) : Type :=
  match k with
  | no_output => unit
  | output_jsonapiWorkspace => jsonapiWorkspace VCSRepo
  | output_jsonapiWorkspaces => list (jsonapiWorkspace VCSRepo)
  end.

(** [Client], as this file uses it: [c.do(&request{...})], which fills the
    output of the request or fails. *)
Record Client {W VCSRepo : Type} : Type := {
  do : forall r : request VCSRepo, M W (filled VCSRepo (output r) + error)
}.
Arguments Client W VCSRepo : clear implicits.

Record CreateWorkspaceInput {VCSRepo : Type} : Type := {
  CreateWorkspaceInput_Organization : option string;
  CreateWorkspaceInput_Name : option string;
  CreateWorkspaceInput_AutoApply : option bool;
  CreateWorkspaceInput_TerraformVersion : option string;
  CreateWorkspaceInput_WorkingDirectory : option string;
  CreateWorkspaceInput_VCSRepo : option VCSRepo
}.
Arguments CreateWorkspaceInput VCSRepo : clear implicits.

Record CreateWorkspaceOutput {VCSRepo : Type} : Type :=
  { CreateWorkspaceOutput_Workspace : option (Workspace VCSRepo) }.
Arguments CreateWorkspaceOutput VCSRepo : clear implicits.

Record DeleteWorkspaceInput : Type := {
  DeleteWorkspaceInput_Organization : option string;
  DeleteWorkspaceInput_Name : option string
}.

Inductive DeleteWorkspaceOutput : Type := DeleteWorkspaceOutput_empty.

(** [l[i] = x]; [None] is the index out of range panic. *)
Fixpoint store {A : Type} (l : list A) (i : nat) (x : A) : option (list A) :=
  match l, i with
  | [], _ => None
  | _ :: rest, O => Some (x :: rest)%list
  | y :: rest, S i' =>
      match store rest i' x with
      | Some rest' => Some (y :: rest')%list
      | None => None
      end
  end.

Section Defs.
Context {W VCSRepo : Type}.

(** [for i, ws := range result { output[i] = ws.Workspace }], from index
    [i] on. *)
Fixpoint range_copy (i : nat) (result : list (jsonapiWorkspace VCSRepo))
  (output : list (option (Workspace VCSRepo)))
  : option (list (option (Workspace VCSRepo))) :=
  match result with
  | [] => Some output
  | ws :: rest =>
      match store output i (Workspace_ptr ws) with
      | None => None
      | Some output' => range_copy (S i) rest output'
      end
  end.

(** Workspaces returns all of the workspaces within an organization.
    [None] stands for a panic of the copying loop. *)
Definition Workspaces (c : Client W VCSRepo) (organization : string)
  : M W (option (list (option (Workspace VCSRepo)) + error)) :=
  r <- do c {| method := "GET";
               path := "/api/v2/organizations/" ++ organization ++ "/workspaces";
               input := None;
               output := output_jsonapiWorkspaces |} ;;
  match r with
  | inr err => ret (Some (inr err))
  | inl result =>
      let output := repeat None (length result) in
      match range_copy 0 result output with
      | None => ret None
      | Some output' => ret (Some (inl output'))
      end
  end.

(** Workspace returns the workspace identified by the given org and name. *)
Definition Workspace_ (c : Client W VCSRepo) (organization workspace : string)
  : M W (option (Workspace VCSRepo) + error) :=
  r <- do c {| method := "GET";
               path := "/api/v2/organizations/" ++ organization
                       ++ "/workspaces/" ++ workspace;
               input := None;
               output := output_jsonapiWorkspace |} ;;
  match r with
  | inr err => ret (inr err)
  | inl output => ret (inl (Workspace_ptr output))
  end.

(** The JSONAPI payload of [CreateWorkspace]. *)
Definition jsonapiParams (input : CreateWorkspaceInput VCSRepo)
  : jsonapiWorkspace VCSRepo :=
  {| Workspace_ptr :=
       Some {| Workspace_ID := None;
               Workspace_Name := CreateWorkspaceInput_Name input;
               Workspace_CreatedAt := None;
               Workspace_AutoApply := CreateWorkspaceInput_AutoApply input;
               Workspace_WorkingDirectory :=
                 CreateWorkspaceInput_WorkingDirectory input;
               Workspace_TerraformVersion :=
                 CreateWorkspaceInput_TerraformVersion input;
               Workspace_VCSRepo := CreateWorkspaceInput_VCSRepo input |} |}.

(** CreateWorkspace is used to create a new workspace with the given
    parameters. *)
Definition CreateWorkspace (c : Client W VCSRepo)
  (input : CreateWorkspaceInput VCSRepo)
  : M W (CreateWorkspaceOutput VCSRepo + error) :=
  match CreateWorkspaceInput_Organization input, CreateWorkspaceInput_Name input with
  | Some organization, Some _ =>
      r <- do c {| method := "POST";
                   path := "/api/v2/organizations/" ++ organization ++ "/workspaces";
                   input := Some (jsonapiParams input);
                   output := output_jsonapiWorkspace |} ;;
      match r with
      | inr err => ret (inr err)
      | inl output =>
          ret (inl {| CreateWorkspaceOutput_Workspace := Workspace_ptr output |})
      end
  | _, _ => ret (inr (errors_New "Organization and Name are required"))
  end.

(** DeleteWorkspace is used to delete a single workspace. *)
Definition DeleteWorkspace (c : Client W VCSRepo) (input : DeleteWorkspaceInput)
  : M W (DeleteWorkspaceOutput + error) :=
  match DeleteWorkspaceInput_Organization input, DeleteWorkspaceInput_Name input with
  | Some organization, Some name =>
      r <- do c {| method := "DELETE";
                   path := "/api/v2/organizations/" ++ organization
                           ++ "/workspaces/" ++ name;
                   input := None;
                   output := no_output |} ;;
      match r with
      | inr err => ret (inr err)
      | inl _ => ret (inl DeleteWorkspaceOutput_empty)
      end
  | _, _ => ret (inr (errors_New "Organization and Name are required"))
  end.

(** [WorkspaceNameSort] provides sorting by the workspace name. *)
Definition WorkspaceNameSort : Type := list (option (Workspace VCSRepo)).

(** [w[i]] for a Go [int]; [None] is the index out of range panic. *)
Definition index (w : WorkspaceNameSort) (i : Z) : option (option (Workspace VCSRepo)) :=
  if ((0 <=? i)%Z && (i <? Z.of_nat (length w))%Z)%bool
  then nth_error w (Z.to_nat i)
  else None.

Definition Len (w : WorkspaceNameSort) : Z := Z.of_nat (length w).

(** [*w[i].Name]; [None] is a panic: index out of range, nil workspace or
    nil name. *)
Definition name_at (w : WorkspaceNameSort) (i : Z) : option string :=
  match index w i with
  | Some (Some ws) => Workspace_Name ws
  | _ => None
  end.

(** [Less(a, b)]: [*w[a].Name < *w[b].Name]. *)
Definition Less (w : WorkspaceNameSort) (a b : Z) : option bool :=
  match name_at w a with
  | None => None
  | Some na =>
      match name_at w b with
      | None => None
      | Some nb => Some (String.ltb na nb)
      end
  end.

(** [Swap(a, b)]: [w[a], w[b] = w[b], w[a]]. *)
Definition Swap (w : WorkspaceNameSort) (a b : Z) : option WorkspaceNameSort :=
  match index w b, index w a with
  | Some x, Some y =>
      match store w (Z.to_nat a) x with
      | None => None
      | Some w' => store w' (Z.to_nat b) y
      end
  | _, _ => None
  end.

(** Every entry is a workspace with a name. *)
Definition named (w : WorkspaceNameSort) : Prop :=
  Forall (fun x => exists ws n, x = Some ws /\ Workspace_Name ws = Some n) w.

(** The index [i] is within the slice. *)
Definition in_range (w : WorkspaceNameSort) (i : Z) : Prop :=
  (0 <= i < Len w)%Z.

(** The methods that satisfy the jsonapi interface. *)
Definition jsonapiWorkspace_GetName (_ : jsonapiWorkspace VCSRepo) : string :=
  "workspaces".
Definition jsonapiWorkspace_GetID (_ : jsonapiWorkspace VCSRepo) : string := "".
End Defs.

End Workspaces.

(** ** Collaborators for teams, policy sets, run creation and workspaces *)

Module CrudFixtures.
Import Transport Crud.

#[export] Instance name_sentinels : Sentinels :=
  {| ErrInvalidOrg := errors_New "invalid value for organization";
     ErrRequiredName := errors_New "name is required";
     ErrInvalidName := errors_New "invalid value for name" |}.

(** A team service that logs the requests it is sent. *)
Definition team_client
  : Client Fixtures.Log unit string (Teams.body unit) Teams.target
      (Teams.decoded unit unit) :=
  {| newRequest := fun method u _ w => (inl (method ++ " " ++ u), w);
     do := fun t _ req w =>
       (match t as t0 return Teams.decoded unit unit t0 + error with
        | Teams.into_Team => inl tt
        | Teams.into_TeamList => inl tt
        | Teams.into_nil => inl tt
        end, req :: w) |}.

Definition the_teams : Teams.teams Fixtures.Log unit string unit unit unit :=
  {| Teams.client := team_client |}.

Definition team_named (name : option string) : Teams.TeamCreateOptions :=
  {| Teams.TeamCreateOptions_Type := "";
     Teams.TeamCreateOptions_Name := name;
     Teams.TeamCreateOptions_OrganizationAccess := None;
     Teams.TeamCreateOptions_Visibility := None |}.

(** A policy set service that logs the requests it is sent; policies and
    workspaces are known by their names. *)
Definition policy_client
  : Client Fixtures.Log unit string (PolicySets.body unit string unit string)
      PolicySets.target (PolicySets.decoded unit unit) :=
  {| newRequest := fun method u _ w => (inl (method ++ " " ++ u), w);
     do := fun t _ req w =>
       (match t as t0 return PolicySets.decoded unit unit t0 + error with
        | PolicySets.into_PolicySet => inl tt
        | PolicySets.into_PolicySetList => inl tt
        | PolicySets.into_nil => inl tt
        end, req :: w) |}.

Definition the_policySets
  : PolicySets.policySets Fixtures.Log unit string unit string unit string unit unit :=
  {| PolicySets.client := policy_client |}.

Definition policy_set_named (name : option string)
  : PolicySets.PolicySetCreateOptions string unit string :=
  {| PolicySets.PolicySetCreateOptions_Type := "";
     PolicySets.PolicySetCreateOptions_Name := name;
     PolicySets.PolicySetCreateOptions_Description := None;
     PolicySets.PolicySetCreateOptions_Global := None;
     PolicySets.PolicySetCreateOptions_PoliciesPath := None;
     PolicySets.PolicySetCreateOptions_Policies := None;
     PolicySets.PolicySetCreateOptions_VCSRepo := None;
     PolicySets.PolicySetCreateOptions_Workspaces := None |}.

Definition policy_set_renamed (name : option string)
  : PolicySets.PolicySetUpdateOptions unit :=
  {| PolicySets.PolicySetUpdateOptions_Type := "";
     PolicySets.PolicySetUpdateOptions_Name := name;
     PolicySets.PolicySetUpdateOptions_Description := None;
     PolicySets.PolicySetUpdateOptions_Global := None;
     PolicySets.PolicySetUpdateOptions_PoliciesPath := None;
     PolicySets.PolicySetUpdateOptions_VCSRepo := None |}.

(** A run service that logs the requests it is sent. *)
Definition run_client
  : Client Fixtures.Log unit string (RunCreation.RunCreateOptions unit string)
      RunCreation.target (RunCreation.decoded unit) :=
  {| newRequest := fun method u _ w => (inl (method ++ " " ++ u), w);
     do := fun t _ req w =>
       (match t as t0 return RunCreation.decoded unit t0 + error with
        | RunCreation.into_Run => inl tt
        end, req :: w) |}.

Definition the_run_creator : RunCreation.runs Fixtures.Log unit string unit string unit :=
  {| RunCreation.client := run_client |}.

Definition run_in (workspace : option string)
  : RunCreation.RunCreateOptions unit string :=
  {| RunCreation.RunCreateOptions_Type := "";
     RunCreation.RunCreateOptions_IsDestroy := None;
     RunCreation.RunCreateOptions_Refresh := None;
     RunCreation.RunCreateOptions_RefreshOnly := None;
     RunCreation.RunCreateOptions_Message := None;
     RunCreation.RunCreateOptions_ConfigurationVersion := None;
     RunCreation.RunCreateOptions_Workspace := workspace;
     RunCreation.RunCreateOptions_TargetAddrs := None;
     RunCreation.RunCreateOptions_ReplaceAddrs := None |}.

(** *** Workspaces *)

Import Workspaces.

Definition workspace_named (name : string) : Workspace unit :=
  {| Workspace_ID := Some ("ws-" ++ name); Workspace_Name := Some name;
     Workspace_CreatedAt := None; Workspace_AutoApply := None;
     Workspace_WorkingDirectory := None; Workspace_TerraformVersion := None;
     Workspace_VCSRepo := None |}.

Definition wrapped (name : string) : jsonapiWorkspace unit :=
  {| Workspace_ptr := Some (workspace_named name) |}.

(** A service with the workspaces prod, dev and staging, which logs the
    requests it is sent. *)
Definition workspace_client : Workspaces.Client Fixtures.Log unit :=
  {| Workspaces.do := fun r w =>
       (match output r as k return filled unit k + error with
        | no_output => inl tt
        | output_jsonapiWorkspace => inl (wrapped "prod")
        | output_jsonapiWorkspaces =>
            inl [wrapped "prod"; wrapped "dev"; wrapped "staging"]
        end, (method r ++ " " ++ path r) :: w) |}.

Definition three_workspaces : list (option (Workspace unit)) :=
  [ Some (workspace_named "prod"); Some (workspace_named "dev");
    Some (workspace_named "staging") ].

End CrudFixtures.

(* ===================================================================== *)
(** * Part II: properties                                                 *)
(* ===================================================================== *)

(** ** Identifier validation *)

Module ValidationFacts.
Import Validation.

Lemma MatchString_empty (cls : list class_item) : MatchString cls "" = false.
Proof. reflexivity. Qed.

Lemma MatchString_all (cls : list class_item) (s : string) :
  MatchString cls s = true <-> s <> "" /\ all_in_class cls s = true.
Proof.
  destruct s as [|c rest]; simpl.
  - split; [discriminate | intros [H _]; now elim H].
  - split; [intros H; split; [discriminate | exact H] | intros [_ H]; exact H].
Qed.

Example validStringID_plain : validStringID (Some "run-Ab3_x.9") = true.
Proof. reflexivity. Qed.

Example validStringID_slash : validStringID (Some "run/1") = false.
Proof. reflexivity. Qed.

Example validStringID_newline :
  validStringID (Some (String.append "run-1" Events.newline)) = false.
Proof. reflexivity. Qed.

Example validStringID_nil : validStringID None = false.
Proof. reflexivity. Qed.

End ValidationFacts.

(** ** Run operations *)

Module RunsFacts.
Import Types Validation Transport Runs.

Section Facts.
Context {W Ctx Req ListOptions Run RunList URL : Type}.
Context {net_url : NetURL URL} {sentinels : Sentinels}.
Variable s : runs W Ctx Req ListOptions Run RunList.
Variable ctx : Ctx.

Lemma rejected_id (id : string) :
  MatchString reStringID id = false -> negb (validStringID (Some id)) = true.
Proof. intros H. simpl. now rewrite H. Qed.

(** C10. An identifier that does not match [^[a-zA-Z0-9\-\._]+$] makes
    [List] return [ErrInvalidWorkspaceID], and [ReadWithOptions], [Read],
    [Apply], [Cancel], [ForceCancel] and [Discard] return
    [ErrInvalidRunID], whatever the client and the options, in a world
    left as it was: neither [newRequest] nor [do] has run. *)
Theorem invalid_id_rejected (id : string) (w : W) :
  MatchString reStringID id = false ->
  (forall o, List s ctx id o w = (inr ErrInvalidWorkspaceID, w))
  /\ (forall o, ReadWithOptions s ctx id o w = (inr ErrInvalidRunID, w))
  /\ Read s ctx id w = (inr ErrInvalidRunID, w)
  /\ (forall o, Apply s ctx id o w = (Some ErrInvalidRunID, w))
  /\ (forall o, Cancel s ctx id o w = (Some ErrInvalidRunID, w))
  /\ (forall o, ForceCancel s ctx id o w = (Some ErrInvalidRunID, w))
  /\ (forall o, Discard s ctx id o w = (Some ErrInvalidRunID, w)).
Proof.
  intros H. pose proof (rejected_id id H) as Hn.
  unfold Read, List, ReadWithOptions, Apply, Cancel, ForceCancel, Discard.
  rewrite Hn. repeat split.
Qed.

(** The transport is reached as soon as the identifier passes: a valid
    run identifier makes [ReadWithOptions] build its request. *)
Lemma valid_id_builds_request (id : string) (o : RunReadOptions) (w : W) err w' :
  MatchString reStringID id = true ->
  newRequest (client s) "GET" ("runs/" ++ QueryEscape id) (body_RunReadOptions o) w
    = (inr err, w') ->
  ReadWithOptions s ctx id o w = (inr err, w').
Proof.
  intros H Hreq. unfold ReadWithOptions, validStringID, bind.
  rewrite H. cbn [negb]. now rewrite Hreq.
Qed.

(** [GetPlanFile] has no such guard: it hands any identifier to
    [newRequest]. *)
Lemma GetPlanFile_unchecked (id : string) (o : PlanFileOptions) (w : W) err w' :
  newRequest (client s) "GET" ("/runs/" ++ QueryEscape id ++ "/plan")
    (body_PlanFileOptions o) w = (inr err, w') ->
  GetPlanFile s ctx id o w = (inr err, w').
Proof.
  intros Hreq. unfold GetPlanFile, bind. now rewrite Hreq.
Qed.
End Facts.

Import Fixtures.

(** The empty identifier, against the logging service: every operation
    is refused and the log stays empty. *)
Lemma invalid_id_rejected_witness :
  MatchString reStringID "" = false
  /\ Read Fixtures.the_runs tt "" [] = (inr ErrInvalidRunID, [])
  /\ Apply Fixtures.the_runs tt "" {| RunApplyOptions_Comment := None |} []
     = (Some ErrInvalidRunID, []).
Proof.
  pose proof (invalid_id_rejected (URL := string) Fixtures.the_runs tt "" []
                eq_refl) as H.
  split; [reflexivity|].
  split; [apply H | apply H].
Defined.

(** A valid identifier, by contrast, reaches the service. *)
Example valid_id_served :
  Read Fixtures.the_runs tt "run-1" [] = (inl tt, ["GET runs/run-1"]).
Proof. reflexivity. Qed.

End RunsFacts.


(** ** Plan operations *)

Module PlansFacts.
Import Types Validation Transport Plans.

Section Facts.
Context {W Ctx Req ListOptions Run RunList URL : Type}.
Context {net_url : NetURL URL}.
Variable s : plans W Ctx Req ListOptions Run RunList.
Variable ctx : Ctx.

(** The [switch] selects exactly the four terminal statuses. *)
Lemma terminal_spec (st : PlanStatus) :
  terminal st = true
  <-> In st ["canceled"; "errored"; "finished"; "unreachable"].
Proof.
  unfold terminal, PlanCanceled, PlanErrored, PlanFinished, PlanUnreachable.
  rewrite !orb_true_iff, !String.eqb_eq. simpl.
  intuition (subst; auto; try congruence).
Qed.

Lemma terminal_constants :
  map terminal [ PlanCanceled; PlanCreated; PlanErrored; PlanFinished;
                 PlanMFAWaiting; PlanPending; PlanQueued; PlanRunning;
                 PlanUnreachable ]
  = [ true; false; true; true; false; false; false; false; true ].
Proof. reflexivity. Qed.

(** [Read] refuses an identifier that does not validate, in the world as
    it was. *)
Lemma Read_invalid (planID : string) (w : W) :
  validStringID (Some planID) = false ->
  Read s ctx planID w = (inr (errors_New "invalid value for plan ID"), w).
Proof. intros H. unfold Read. now rewrite H. Qed.

(** C6. The completion predicate [Logs] builds reads the plan again, by
    the identifier of the plan read first.  When that read fails it
    answers [false] together with the read's error; when it succeeds it
    answers without error, [true] exactly when the status just read is one
    of canceled, errored, finished, unreachable, and [false] for every
    other status.  The world is the one the read leaves. *)
Theorem done_terminal_exactly (p : Plan) (w : W) :
  match Read s ctx (ID p) w with
  | (inr err, w') => done s ctx p w = ((false, Some err), w')
  | (inl p', w') =>
      exists b, done s ctx p w = ((b, None), w')
      /\ (b = true
          <-> In (Status p') ["canceled"; "errored"; "finished"; "unreachable"])
  end.
Proof.
  unfold done, bind.
  destruct (Read s ctx (ID p) w) as [[p'|err] w']; [|reflexivity].
  destruct (terminal (Status p')) eqn:Ht.
  - exists true. split; [reflexivity|]. now rewrite <- terminal_spec.
  - exists false. split; [reflexivity|]. rewrite <- terminal_spec, Ht. tauto.
Qed.

(** C9. [Logs] returns a nil reader and a non-nil error when the
    identifier does not validate, when reading the plan fails, when the plan
    read has an empty [LogReadURL], and when that URL does not parse; when
    all four checks pass it returns the reader made of the client, the
    caller's context, the completion predicate over the plan read, and the
    parsed URL; and a reader is returned in that case only. *)
Theorem Logs_checks (planID : string) (w : W) :
  (validStringID (Some planID) = false ->
     fails (fst (Logs s ctx planID w)) /\ snd (Logs s ctx planID w) = w)
  /\ (forall err w',
        validStringID (Some planID) = true ->
        Read s ctx planID w = (inr err, w') ->
        Logs s ctx planID w = (inr err, w'))
  /\ (forall p w',
        validStringID (Some planID) = true ->
        Read s ctx planID w = (inl p, w') ->
        LogReadURL p = "" ->
        fails (fst (Logs s ctx planID w)) /\ snd (Logs s ctx planID w) = w')
  /\ (forall p w' err,
        validStringID (Some planID) = true ->
        Read s ctx planID w = (inl p, w') ->
        LogReadURL p <> "" ->
        Parse (LogReadURL p) = inr err ->
        fails (fst (Logs s ctx planID w)) /\ snd (Logs s ctx planID w) = w')
  /\ (forall p w' u,
        validStringID (Some planID) = true ->
        Read s ctx planID w = (inl p, w') ->
        LogReadURL p <> "" ->
        Parse (LogReadURL p) = inl u ->
        Logs s ctx planID w
        = (inl {| LogReader_client := client s; LogReader_ctx := ctx;
                  LogReader_done := done s ctx p; LogReader_logURL := u |}, w'))
  /\ (forall lr w',
        Logs s ctx planID w = (inl lr, w') ->
        validStringID (Some planID) = true
        /\ exists p u,
             Read s ctx planID w = (inl p, w')
             /\ LogReadURL p <> ""
             /\ Parse (LogReadURL p) = inl u
             /\ lr = {| LogReader_client := client s; LogReader_ctx := ctx;
                        LogReader_done := done s ctx p; LogReader_logURL := u |}).
Proof.
  unfold Logs, bind, fails.
  destruct (validStringID (Some planID)) eqn:Hv; cbn [negb].
  - split; [discriminate|].
    destruct (Read s ctx planID w) as [[p|e] w1] eqn:HR.
    + destruct (String.eqb (LogReadURL p) "") eqn:Hu.
      * apply String.eqb_eq in Hu.
        split; [intros; discriminate|].
        split; [intros p0 w0 _ Heq _; inversion Heq; subst; cbn; eauto|].
        split; [intros p0 w0 e0 _ Heq Hne; inversion Heq; subst; now elim Hne|].
        split; [intros p0 w0 u0 _ Heq Hne; inversion Heq; subst; now elim Hne|].
        intros lr w0 Heq. discriminate.
      * apply String.eqb_neq in Hu.
        destruct (Parse (LogReadURL p)) as [u|e] eqn:HP.
        -- split; [intros; discriminate|].
           split; [intros p0 w0 _ Heq H0; inversion Heq; subst; now elim Hu|].
           split; [intros p0 w0 e0 _ Heq _ HP0; inversion Heq; subst;
                   rewrite HP in HP0; discriminate|].
           split; [intros p0 w0 u0 _ Heq _ HP0; inversion Heq; subst;
                   rewrite HP in HP0; inversion HP0; reflexivity|].
           intros lr w0 Heq. inversion Heq; subst.
           split; [reflexivity|]. exists p, u. auto.
        -- split; [intros; discriminate|].
           split; [intros p0 w0 _ Heq H0; inversion Heq; subst; now elim Hu|].
           split; [intros p0 w0 e0 _ Heq _ _; inversion Heq; subst; cbn; eauto|].
           split; [intros p0 w0 u0 _ Heq _ HP0; inversion Heq; subst;
                   rewrite HP in HP0; discriminate|].
           intros lr w0 Heq. discriminate.
    + split; [intros e0 w0 _ Heq; inversion Heq; reflexivity|].
      split; [intros; discriminate|].
      split; [intros; discriminate|].
      split; [intros; discriminate|].
      intros lr w0 Heq. discriminate.
  - split; [intros _; cbn; eauto|].
    do 4 (split; [intros; discriminate|]).
    intros lr w0 Heq. discriminate.
Qed.
End Facts.

Import Fixtures.

(** Against the logging service the predicate of plan-1 answers terminal
    once a first request has been served, and not before. *)
Example done_before_and_after :
  done the_plans tt (served_plan []) [] = ((false, None), ["GET plans/plan-1"])
  /\ done the_plans tt (served_plan []) ["GET plans/plan-1"]
     = ((true, None), ["GET plans/plan-1"; "GET plans/plan-1"]).
Proof. split; reflexivity. Qed.

(** [Logs] on plan-1: the four checks pass and the reader carries the
    parsed URL, the context and the predicate. *)
Lemma Logs_checks_witness :
  validStringID (Some "plan-1") = true
  /\ Read the_plans tt "plan-1" [] = (inl (served_plan []), ["GET plans/plan-1"])
  /\ LogReadURL (served_plan []) <> ""
  /\ Parse (LogReadURL (served_plan [])) = inl "https://archivist.local/plan-1"
  /\ Logs the_plans tt "plan-1" []
     = (inl {| LogReader_client := client the_plans; LogReader_ctx := tt;
               LogReader_done := done the_plans tt (served_plan []);
               LogReader_logURL := "https://archivist.local/plan-1" |},
        ["GET plans/plan-1"]).
Proof.
  assert (Hne : LogReadURL (served_plan []) <> "") by discriminate.
  repeat (split; [first [reflexivity | exact Hne]|]).
  destruct (Logs_checks the_plans tt "plan-1" []) as (_ & _ & _ & _ & H & _).
  exact (H (served_plan []) ["GET plans/plan-1"] "https://archivist.local/plan-1"
           eq_refl eq_refl Hne eq_refl).
Defined.

(** An identifier with a slash is refused before any request. *)
Example Logs_invalid_id :
  Logs the_plans tt "plan/1" [] = (inr (errors_New "invalid value for plan ID"), []).
Proof. reflexivity. Qed.

End PlansFacts.


(** ** Event subscription *)

Module EventsFacts.
Import Events.
Local Open Scope list_scope.

(** C7, as the specification words it, fails: the source declares
    [run_planned_and_finished], which the enumeration leaves out. *)
Lemma event_tags_not_closed :
  ~ (forall t : EventType, In t EventType_constants <-> In t spec_event_tags).
Proof.
  intros H. destruct (H EventRunPlannedAndFinished) as [H1 _].
  assert (Hin : In EventRunPlannedAndFinished EventType_constants)
    by (unfold EventType_constants; simpl; tauto).
  specialize (H1 Hin). unfold spec_event_tags, EventRunPlannedAndFinished in H1.
  simpl in H1. intuition discriminate.
Qed.

(** C7, amended. The event type constants of the source are the twelve
    tags the specification enumerates together with
    [run_planned_and_finished]: every constant is one of these thirteen and
    each of the thirteen is a constant. *)
Theorem event_tags_exactly (t : EventType) :
  In t EventType_constants
  <-> In t spec_event_tags \/ t = "run_planned_and_finished".
Proof.
  unfold EventType_constants, spec_event_tags, EventOrganizationCreated,
    EventOrganizationDeleted, EventWorkspaceCreated, EventWorkspaceDeleted,
    EventRunCreated, EventRunCompleted, EventRunCanceled, EventRunApplied,
    EventRunPlanned, EventRunPlannedAndFinished, EventPlanQueued,
    EventApplyQueued, EventError.
  simpl. intuition (subst; auto 20).
Qed.

Lemma event_tags_counts :
  length EventType_constants = 13 /\ length spec_event_tags = 12
  /\ NoDup EventType_constants.
Proof.
  split; [reflexivity|]. split; [reflexivity|].
  unfold EventType_constants.
  repeat (constructor; [simpl; intuition discriminate|]).
  constructor.
Qed.

Section Facts.
Context {V : Type} {imports : Imports V}.

(** C5. [Subscribe] returns what the dial of [wss://host/events] decides,
    at once.  When the dial fails, the subscription is nil and the error
    is the dial's error: no channel is made and no goroutine started.  When
    it succeeds, the error is nil and the subscription holds the dialled
    connection, a fresh channel, and its goroutine at the first read. *)
Theorem Subscribe_dial (e : events) (id : string) :
  match Dial (URL_String "wss" (client_baseURL_Host e) "/events") with
  | inr err =>
      ret_val (Subscribe e id) = None /\ ret_err (Subscribe e id) = Some err
  | inl c =>
      ret_err (Subscribe e id) = None
      /\ ret_val (Subscribe e id)
         = Some {| conn := c; ch := make_chan 0; task := at_read;
                   received := []; Close_returns := [] |}
  end.
Proof.
  unfold Subscribe.
  destruct (Dial (URL_String "wss" (client_baseURL_Host e) "/events"));
    split; reflexivity.
Qed.

Lemma Subscribe_inv (e : events) (id : string) (s0 : system V) :
  Subscribe e id = inl s0 ->
  ch s0 = make_chan 0 /\ task s0 = at_read /\ received s0 = []
  /\ Close_returns s0 = [] /\ unbuffered s0.
Proof.
  unfold Subscribe.
  destruct (Dial _); [|discriminate].
  intros H. inversion H; subst; clear H. unfold unbuffered. cbn. repeat split.
Qed.

(** *** Schedules *)

Lemma run_app (a b : list action) (s : system V) :
  run (a ++ b) s = match run a s with
                   | Some s' => run b s'
                   | None => None
                   end.
Proof.
  revert s. induction a as [|x a IH]; intros s; cbn; [reflexivity|].
  destruct (step x s); [apply IH | reflexivity].
Qed.

(** A property kept by every step is kept by every schedule. *)
Lemma run_invariant (P : system V -> Prop) :
  (forall a s s', P s -> step a s = Some s' -> P s') ->
  forall sched s s', P s -> run sched s = Some s' -> P s'.
Proof.
  intros Hstep sched. induction sched as [|a sched IH]; intros s s' HP Hrun; cbn in Hrun.
  - now inversion Hrun; subst.
  - destruct (step a s) as [s1|] eqn:Hs; [|discriminate].
    eapply IH; [eapply Hstep; eassumption | exact Hrun].
Qed.

(** *** The channel stays unbuffered and open *)

Lemma Close_inv (s s' : system V) (net : option error) :
  Close s net = Some s' ->
  ch s' = ch s /\ task s' = task s /\ received s' = received s
  /\ incoming (conn s') = incoming (conn s).
Proof.
  unfold Close, WriteMessage.
  destruct net as [err|].
  - intros H; inversion H; subst; cbn; auto.
  - destruct (closed (conn s)); [discriminate|].
    intros H; inversion H; subst; cbn; auto.
Qed.

Lemma send_blocks (s : system V) (ev : Event V) (k : after) :
  unbuffered s -> task s = at_send ev k -> task_step s = None.
Proof.
  intros (Hc & Hb & _) Ht. unfold task_step. rewrite Ht, Hc, Hb. reflexivity.
Qed.

Lemma step_unbuffered (a : action) (s s' : system V) :
  unbuffered s -> step a s = Some s' -> unbuffered s'.
Proof.
  intros Hu Hs. destruct a as [| |net]; cbn in Hs.
  - unfold task_step in Hs. destruct (task s) as [|ev k| |] eqn:Ht.
    + destruct (ReadMessage (conn s)) as [[[mt msg|err] c']|]; [| |discriminate].
      * destruct (Unmarshal msg); inversion Hs; subst; exact Hu.
      * inversion Hs; subst; exact Hu.
    + rewrite (proj1 Hu), (proj1 (proj2 Hu)) in Hs. discriminate.
    + inversion Hs; subst; exact Hu.
    + discriminate.
  - unfold consumer_recv in Hs. rewrite (proj1 (proj2 Hu)) in Hs.
    destruct (task s); try discriminate. inversion Hs; subst; exact Hu.
  - apply Close_inv in Hs. destruct Hs as (Hch & _).
    unfold unbuffered. rewrite Hch. exact Hu.
Qed.

Lemma run_unbuffered (sched : list action) (s s' : system V) :
  unbuffered s -> run sched s = Some s' -> unbuffered s'.
Proof. apply (run_invariant unbuffered). intros a x y; apply step_unbuffered. Qed.

(** *** Backpressure *)

(** While nobody receives, a goroutine waiting at a send stays there: no
    frame is read and nothing is delivered. *)
Lemma stalled (sched : list action) (s s' : system V) (ev : Event V) (k : after) :
  unbuffered s -> task s = at_send ev k ->
  ~ In receive sched -> run sched s = Some s' ->
  task s' = at_send ev k /\ incoming (conn s') = incoming (conn s)
  /\ received s' = received s.
Proof.
  revert s. induction sched as [|a sched IH]; intros s Hu Ht Hno Hrun; cbn in Hrun.
  - inversion Hrun; subst; auto.
  - destruct (step a s) as [s1|] eqn:Hs; [|discriminate].
    assert (Hu1 : unbuffered s1) by (eapply step_unbuffered; eassumption).
    destruct a as [| |net]; cbn in Hs.
    + rewrite (send_blocks s ev k Hu Ht) in Hs. discriminate.
    + elim Hno. now left.
    + apply Close_inv in Hs. destruct Hs as (_ & Ht1 & Hr1 & Hi1).
      destruct (IH s1 Hu1) as (A & B & C); try assumption.
      * now rewrite Ht1.
      * intros Hin. apply Hno. now right.
      * rewrite A, B, C, Hr1, Hi1. auto.
Qed.

(** While nobody receives, at most one more frame is read. *)
Lemma one_read_without_receive (sched : list action) (s s' : system V) :
  unbuffered s -> ~ In receive sched -> run sched s = Some s' ->
  length (incoming (conn s)) <= S (length (incoming (conn s'))).
Proof.
  revert s. induction sched as [|a sched IH]; intros s Hu Hno Hrun; cbn in Hrun.
  - inversion Hrun; subst. auto.
  - destruct (step a s) as [s1|] eqn:Hs; [|discriminate].
    assert (Hu1 : unbuffered s1) by (eapply step_unbuffered; eassumption).
    assert (Hno1 : ~ In receive sched) by (intros Hin; apply Hno; now right).
    destruct a as [| |net]; cbn in Hs.
    + unfold task_step in Hs. destruct (task s) as [|ev k| |] eqn:Ht.
      * unfold ReadMessage in Hs.
        destruct (incoming (conn s)) as [|r rest] eqn:Hi; [discriminate|].
        assert (Hst : exists ev k, task s1 = at_send ev k /\ incoming (conn s1) = rest).
        { destruct r as [mt msg|err].
          - destruct (Unmarshal msg); inversion Hs; subst; cbn; eauto.
          - inversion Hs; subst; cbn; eauto. }
        destruct Hst as (ev & k & Ht1 & Hi1).
        destruct (stalled sched s1 s' ev k Hu1 Ht1 Hno1 Hrun) as (_ & B & _).
        rewrite B, Hi1. cbn. auto.
      * rewrite (proj1 Hu), (proj1 (proj2 Hu)) in Hs. discriminate.
      * inversion Hs; subst. apply (IH _ Hu1 Hno1 Hrun).
      * discriminate.
    + elim Hno. now left.
    + apply Close_inv in Hs. destruct Hs as (_ & _ & _ & Hi1).
      rewrite <- Hi1. apply (IH _ Hu1 Hno1 Hrun).
Qed.

(** C8. The channel [Subscribe] makes has capacity zero, and stays so
    with nothing buffered.  Hence a goroutine at [ch <- ev] cannot go on
    by itself: the send completes only in the step in which the consumer
    receives that very event.  While the consumer does not receive, the
    goroutine stays at its send, reads no frame and delivers nothing; from
    any point on, a consumer that has stopped receiving lets at most one
    more frame be read. *)
Theorem unbuffered_backpressure (e : events) (id : string) (s0 : system V) :
  Subscribe e id = inl s0 ->
  ch s0 = make_chan 0
  /\ forall sched s, run sched s0 = Some s ->
       cap (ch s) = 0 /\ buf (ch s) = []
       /\ (forall ev k, task s = at_send ev k ->
             task_step s = None
             /\ (exists s', consumer_recv s = Some s'
                            /\ received s' = received s ++ [ev]
                            /\ task s' = resume k)
             /\ (forall sched' s', ~ In receive sched' -> run sched' s = Some s' ->
                   task s' = at_send ev k
                   /\ incoming (conn s') = incoming (conn s)
                   /\ received s' = received s))
       /\ (forall sched' s', ~ In receive sched' -> run sched' s = Some s' ->
             length (incoming (conn s)) <= S (length (incoming (conn s')))).
Proof.
  intros Hsub. destruct (Subscribe_inv e id s0 Hsub) as (Hch & _ & _ & _ & Hu0).
  split; [exact Hch|].
  intros sched s Hrun.
  assert (Hu : unbuffered s) by (eapply run_unbuffered; eassumption).
  split; [apply Hu|]. split; [apply Hu|]. split.
  - intros ev k Ht. split; [now apply (send_blocks s ev k)|]. split.
    + unfold consumer_recv. rewrite (proj1 (proj2 Hu)), Ht.
      eexists; split; [reflexivity|]. cbn. auto.
    + intros sched' s' Hno Hrun'. now apply (stalled sched' s s' ev k).
  - intros sched' s' Hno Hrun'. now apply (one_read_without_receive sched' s s').
Qed.

(** *** Delivery in order *)

Lemma step_delivering (evs : list (Event V)) (a : action) (s s' : system V) :
  delivering evs s -> step a s = Some s' -> delivering evs s'.
Proof.
  intros (Hu & Hl & todo & Hdec & Heq) Hs.
  assert (Hu' : unbuffered s') by (eapply step_unbuffered; eassumption).
  split; [exact Hu'|].
  destruct a as [| |net]; cbn in Hs.
  - unfold task_step in Hs. destruct (task s) as [|ev k| |] eqn:Ht.
    + unfold ReadMessage in Hs.
      destruct (incoming (conn s)) as [|r rest] eqn:Hi; [discriminate|].
      unfold decode_to in Hdec.
      destruct todo as [|ev0 todo']; [inversion Hdec|].
      apply Forall2_cons_iff in Hdec. destruct Hdec as [Hr Hrest].
      destruct r as [mt msg|err]; cbn in Hr; [|discriminate].
      destruct (Unmarshal msg) as [ev|err]; cbn in Hr; [|discriminate].
      injection Hr as ->. injection Hs as <-. cbn.
      split; [exact I|]. exists todo'. split; [exact Hrest|]. exact Heq.
    + rewrite (proj1 Hu), (proj1 (proj2 Hu)) in Hs. discriminate.
    + elim Hl.
    + discriminate.
  - unfold consumer_recv in Hs. rewrite (proj1 (proj2 Hu)) in Hs.
    destruct (task s) as [|ev k| |] eqn:Ht; try discriminate.
    destruct k; [|elim Hl].
    injection Hs as <-. cbn.
    split; [exact I|]. exists todo. split; [exact Hdec|].
    rewrite Heq. cbn. now rewrite <- app_assoc.
  - apply Close_inv in Hs. destruct Hs as (_ & Ht & Hr & Hi).
    rewrite Ht, Hr, Hi. split; [exact Hl|]. exists todo. auto.
Qed.

Lemma decode_to_length (rs : list read_result) (evs : list (Event V)) :
  decode_to rs evs -> length evs = length rs.
Proof. intros H. symmetry. exact (Forall2_length H). Qed.

(** With the consumer receiving in lockstep, the goroutine gets through
    all the frames left. *)
Lemma lockstep_completes (evs : list (Event V)) (s : system V) :
  delivering evs s -> task s = at_read ->
  exists s', run (lockstep (length (incoming (conn s)))) s = Some s'
             /\ task s' = at_read /\ incoming (conn s') = [] /\ received s' = evs.
Proof.
  remember (length (incoming (conn s))) as n eqn:Hn.
  revert s Hn. induction n as [|n IH]; intros s Hn Hd Ht.
  - exists s. cbn. destruct Hd as (_ & _ & todo & Hdec & Heq).
    destruct (incoming (conn s)); [|discriminate].
    destruct todo; [|inversion Hdec]. rewrite Ht in Heq. cbn in Heq.
    rewrite app_nil_r in Heq. auto.
  - destruct (incoming (conn s)) as [|r rest] eqn:Hi; [discriminate|].
    pose proof Hd as (Hu & _ & todo & Hdec & Heq).
    rewrite Hi in Hdec. unfold decode_to in Hdec.
    destruct todo as [|ev0 todo']; [inversion Hdec|].
    apply Forall2_cons_iff in Hdec. destruct Hdec as [Hr Hrest].
    destruct r as [mt msg|err]; cbn in Hr; [|discriminate].
    destruct (Unmarshal msg) as [ev|err] eqn:Hm; cbn in Hr; [|discriminate].
    injection Hr as <-.
    assert (H1 : exists s1, step run_task s = Some s1 /\ task s1 = at_send ev next_iteration
                            /\ incoming (conn s1) = rest).
    { cbn. unfold task_step, ReadMessage. rewrite Ht, Hi, Hm.
      eexists; split; [reflexivity|]. cbn. auto. }
    destruct H1 as (s1 & Hs1 & Ht1 & Hi1).
    pose proof (step_delivering evs _ _ _ Hd Hs1) as Hd1.
    assert (H2 : exists s2, step receive s1 = Some s2 /\ task s2 = at_read
                            /\ incoming (conn s2) = rest).
    { cbn. unfold consumer_recv. rewrite (proj1 (proj2 (proj1 Hd1))), Ht1.
      eexists; split; [reflexivity|]. cbn. auto. }
    destruct H2 as (s2 & Hs2 & Ht2 & Hi2).
    pose proof (step_delivering evs _ _ _ Hd1 Hs2) as Hd2.
    destruct (IH s2) as (s' & Hrun & A & B & C); try assumption.
    { rewrite Hi2. cbn in Hn. now inversion Hn. }
    exists s'. cbn [lockstep run]. rewrite Hs1, Hs2. auto.
Qed.

(** C1. Let the frames to come on a subscription's connection all decode,
    to [evs] in that order.  Then at every moment the events the consumer
    has received, followed by the one the goroutine holds and by the
    decodings of the frames still unread, are [evs]: what has been received
    is an initial part of [evs], nothing lost, repeated or out of place.
    When the goroutine is back at the read with no frame left, the consumer
    has received exactly [evs], one event per frame; and with the consumer
    receiving, that moment is reached. *)
Theorem frames_forwarded_in_order (e : events) (id : string) (s0 : system V)
  (evs : list (Event V)) :
  Subscribe e id = inl s0 ->
  decode_to (incoming (conn s0)) evs ->
  length evs = length (incoming (conn s0))
  /\ (forall sched s, run sched s0 = Some s ->
        exists todo, decode_to (incoming (conn s)) todo
                     /\ evs = received s ++ in_hand (task s) ++ todo)
  /\ (forall sched s, run sched s0 = Some s ->
        task s = at_read -> incoming (conn s) = [] -> received s = evs)
  /\ (exists s, run (lockstep (length (incoming (conn s0)))) s0 = Some s
                /\ task s = at_read /\ incoming (conn s) = [] /\ received s = evs).
Proof.
  intros Hsub Hdec.
  destruct (Subscribe_inv e id s0 Hsub) as (_ & Ht0 & Hr0 & _ & Hu0).
  assert (Hd0 : delivering evs s0).
  { split; [exact Hu0|]. rewrite Ht0, Hr0. split; [exact I|].
    exists evs. split; [exact Hdec | reflexivity]. }
  assert (Hreach : forall sched s, run sched s0 = Some s -> delivering evs s).
  { intros sched s. apply (run_invariant (delivering evs)); [|exact Hd0].
    intros a x y. apply step_delivering. }
  split; [now apply decode_to_length|]. split; [|split].
  - intros sched s Hrun. destruct (Hreach sched s Hrun) as (_ & _ & Htodo). exact Htodo.
  - intros sched s Hrun Ht Hi.
    destruct (Hreach sched s Hrun) as (_ & _ & todo & Hd & Heq).
    rewrite Hi in Hd. destruct todo; [|inversion Hd].
    rewrite Ht in Heq. cbn in Heq. now rewrite app_nil_r in Heq.
  - now apply lockstep_completes.
Qed.

(** *** Failure of the read or of the decoding *)

Lemma step_failed (ev : Event V) (base : list (Event V)) (a : action)
  (s s' : system V) :
  failed ev base s -> step a s = Some s' -> failed ev base s'.
Proof.
  intros (Hu & Hcase) Hs.
  assert (Hu' : unbuffered s') by (eapply step_unbuffered; eassumption).
  split; [exact Hu'|].
  destruct a as [| |net]; cbn in Hs.
  - destruct Hcase as [(Ht & Hr)|(Hr & [Ht|Ht])].
    + rewrite (send_blocks s ev leave Hu Ht) in Hs. discriminate.
    + unfold task_step in Hs. rewrite Ht in Hs. injection Hs as <-. cbn. auto.
    + unfold task_step in Hs. rewrite Ht in Hs. discriminate.
  - unfold consumer_recv in Hs. rewrite (proj1 (proj2 Hu)) in Hs.
    destruct Hcase as [(Ht & Hr)|(Hr & [Ht|Ht])]; rewrite Ht in Hs;
      try discriminate.
    injection Hs as <-. cbn. rewrite Hr. auto.
  - apply Close_inv in Hs. destruct Hs as (_ & Ht & Hr & _).
    rewrite Ht, Hr. exact Hcase.
Qed.

(** C3. When the goroutine's read fails, or the frame read does not
    decode, the goroutine moves to the send of one event of type
    [EventError] whose payload is the text [websocket read error: ] or
    [websocket decode error: ] followed by the error's message and a line
    feed.  From then on, whatever happens, the consumer has received either
    what it had before or that plus this one event, in which case the
    goroutine is returning or gone; the channel is not closed; and once the
    consumer takes the event the goroutine exits, closing the connection. *)
Theorem failure_reported_once (e : events) (id : string) (s0 s : system V)
  (sched : list action) (r : read_result) (c' : Conn) :
  Subscribe e id = inl s0 ->
  run sched s0 = Some s ->
  task s = at_read ->
  ReadMessage (conn s) = Some (r, c') ->
  decodes r = None ->
  exists ev s1,
    task_step s = Some s1
    /\ task s1 = at_send ev leave /\ received s1 = received s
    /\ Event_Type ev = EventError
    /\ match r with
       | ReadError err =>
           Event_Payload ev
           = payload_string ("websocket read error: " ++ Error err ++ newline)%string
       | Message _ msg =>
           exists err,
             Unmarshal msg = inr err
             /\ Event_Payload ev
                = payload_string
                    ("websocket decode error: " ++ Error err ++ newline)%string
       end
    /\ (forall sched' s', run sched' s1 = Some s' ->
          chan_closed (ch s') = false
          /\ ((received s' = received s /\ task s' = at_send ev leave)
              \/ (received s' = received s ++ [ev]
                  /\ (task s' = at_return \/ task s' = exited))))
    /\ (exists s2, run [receive; run_task] s1 = Some s2
                   /\ received s2 = received s ++ [ev]
                   /\ task s2 = exited /\ closed (conn s2) = true).
Proof.
  intros Hsub Hrun Ht Hread Hdec.
  destruct (Subscribe_inv e id s0 Hsub) as (_ & _ & _ & _ & Hu0).
  assert (Hu : unbuffered s) by (eapply run_unbuffered; eassumption).
  assert (Hgo : forall ev,
            task_step s = Some {| conn := c'; ch := ch s; task := at_send ev leave;
                                  received := received s;
                                  Close_returns := Close_returns s |} ->
            let s1 := {| conn := c'; ch := ch s; task := at_send ev leave;
                         received := received s;
                         Close_returns := Close_returns s |} in
            (forall sched' s', run sched' s1 = Some s' ->
               chan_closed (ch s') = false
               /\ ((received s' = received s /\ task s' = at_send ev leave)
                   \/ (received s' = received s ++ [ev]
                       /\ (task s' = at_return \/ task s' = exited))))
            /\ (exists s2, run [receive; run_task] s1 = Some s2
                           /\ received s2 = received s ++ [ev]
                           /\ task s2 = exited /\ closed (conn s2) = true)).
  { intros ev Hstep s1.
    assert (Hu1 : unbuffered s1) by exact Hu.
    assert (Hf1 : failed ev (received s) s1) by (split; [exact Hu1 | left; auto]).
    split.
    - intros sched' s' Hrun'.
      assert (Hf : failed ev (received s) s').
      { apply (run_invariant (failed ev (received s))) with (sched := sched') (s := s1);
          [intros a x y; apply step_failed | exact Hf1 | exact Hrun']. }
      destruct Hf as ((_ & _ & Hc) & Hcase). split; [exact Hc|].
      destruct Hcase as [(A & B)|(A & B)]; auto.
    - cbn. unfold consumer_recv. cbn. rewrite (proj1 (proj2 Hu)). cbn.
      eexists; split; [reflexivity|]. cbn. auto. }
  unfold task_step in *. rewrite Ht, Hread in *.
  destruct r as [mt msg|err]; cbn in Hdec.
  - destruct (Unmarshal msg) as [ev|err] eqn:Hm; [discriminate|].
    eexists; eexists. split; [reflexivity|]. cbn.
    split; [reflexivity|]. split; [reflexivity|]. split; [reflexivity|].
    split; [exists err; split; reflexivity|].
    apply Hgo. reflexivity.
  - eexists; eexists. split; [reflexivity|]. cbn.
    split; [reflexivity|]. split; [reflexivity|]. split; [reflexivity|].
    split; [reflexivity|].
    apply Hgo. reflexivity.
Qed.

(** *** Close *)

(** A [Close()] that returns nil has written the close message on a
    connection not yet closed locally, and has changed nothing else: the
    goroutine stands where it stood. *)
Lemma Close_nil (s s' : system V) :
  step (call_Close None) s = Some s' ->
  closed (conn s) = false
  /\ outgoing (conn s')
     = outgoing (conn s)
       ++ [{| frame_type := CloseMessage;
              frame_data := FormatCloseMessage CloseNormalClosure "" |}]
  /\ Close_returns s' = Close_returns s ++ [None]
  /\ closed (conn s') = false
  /\ task s' = task s /\ ch s' = ch s /\ received s' = received s
  /\ incoming (conn s') = incoming (conn s).
Proof.
  cbn. unfold Close, WriteMessage.
  destruct (closed (conn s)) eqn:Hc; [discriminate|].
  intros H. injection H as <-. cbn. repeat split; assumption.
Qed.

(** A [Close()] whose write fails returns that error and sends nothing. *)
Lemma Close_error (s s' : system V) (err : error) :
  step (call_Close (Some err)) s = Some s' ->
  outgoing (conn s') = outgoing (conn s)
  /\ Close_returns s' = Close_returns s ++ [Some err].
Proof. cbn. unfold Close, WriteMessage. intros H. injection H as <-. cbn. auto. Qed.

(** The connection is closed locally by the goroutine's exit only. *)
Lemma closed_by_exit (a : action) (s s' : system V) :
  step a s = Some s' -> closed (conn s) = false -> closed (conn s') = true ->
  a = run_task /\ task s = at_return /\ task s' = exited.
Proof.
  intros Hs Hc Hc'. destruct a as [| |net]; cbn in Hs.
  - unfold task_step in Hs. destruct (task s) as [|ev k| |] eqn:Ht.
    + unfold ReadMessage in Hs. destruct (incoming (conn s)); [discriminate|].
      destruct r as [mt msg|err];
        [destruct (Unmarshal msg)|]; injection Hs as <-; cbn in Hc'; congruence.
    + destruct (_ <? _)%nat; [|discriminate]. injection Hs as <-. cbn in Hc'. congruence.
    + injection Hs as <-. auto.
    + discriminate.
  - unfold consumer_recv in Hs. destruct (buf (ch s)).
    + destruct (task s); try discriminate. injection Hs as <-. cbn in Hc'. congruence.
    + injection Hs as <-. cbn in Hc'. congruence.
  - unfold Close, WriteMessage in Hs. destruct net.
    + injection Hs as <-. cbn in Hc'. congruence.
    + rewrite Hc in Hs. injection Hs as <-. cbn in Hc'. congruence.
Qed.
End Facts.

Import Fixtures.

(** *** The subscription at work *)

(** Five frames pushed by the endpoint reach the consumer as the five
    events, in that order. *)
Example five_frames_five_events :
  option_map received (run (lockstep 5) (subscribed tfe_local)) = Some five_events.
Proof. reflexivity. Qed.

(** A consumer that never receives leaves the goroutine at its first
    send, with four frames unread. *)
Example no_consumer_one_read :
  option_map (fun s => (task s, length (incoming (conn s)), received s))
    (run [run_task] (subscribed tfe_local))
  = Some (at_send (event_of EventOrganizationCreated) next_iteration, 4, [])
  /\ run [run_task; run_task] (subscribed tfe_local) = None.
Proof. split; reflexivity. Qed.

(** An endpoint that refuses the connection: an error and no
    subscription. *)
Example refused_connection :
  Subscribe nowhere "dummy-id" = inr (errors_New "dial tcp: connection refused").
Proof. reflexivity. Qed.

Lemma frames_forwarded_in_order_witness :
  Subscribe tfe_local "dummy-id" = inl (subscribed tfe_local)
  /\ decode_to (incoming (conn (subscribed tfe_local))) five_events
  /\ exists s, run (lockstep 5) (subscribed tfe_local) = Some s
               /\ task s = at_read /\ incoming (conn s) = []
               /\ received s = five_events.
Proof.
  assert (Hdec : decode_to (incoming (conn (subscribed tfe_local))) five_events)
    by (repeat constructor).
  split; [reflexivity|]. split; [exact Hdec|].
  exact (proj2 (proj2 (proj2
    (frames_forwarded_in_order tfe_local "dummy-id" (subscribed tfe_local)
       five_events eq_refl Hdec)))).
Defined.

Lemma unbuffered_backpressure_witness :
  Subscribe tfe_local "dummy-id" = inl (subscribed tfe_local)
  /\ ch (subscribed tfe_local) = make_chan 0.
Proof.
  split; [reflexivity|].
  exact (proj1 (unbuffered_backpressure tfe_local "dummy-id"
                  (subscribed tfe_local) eq_refl)).
Defined.

(** A frame that does not decode: the consumer gets the one error event
    and the goroutine is gone. *)
Example decode_failure_run :
  option_map (fun s => (received s, task s, closed (conn s)))
    (run [run_task; receive; run_task] (subscribed bad_local))
  = Some ([ {| Event_Type := EventError;
               Event_Payload := payload_string
                 ("websocket decode error: invalid character" ++ newline)%string |} ],
          exited, true).
Proof. reflexivity. Qed.

Lemma failure_reported_once_witness :
  Subscribe bad_local "dummy-id" = inl (subscribed bad_local)
  /\ run [] (subscribed bad_local) = Some (subscribed bad_local)
  /\ task (subscribed bad_local) = at_read
  /\ ReadMessage (conn (subscribed bad_local))
     = Some (Message 1 [Byte.x7b],
             {| incoming := []; outgoing := []; closed := false |})
  /\ decodes (V := unit) (Message 1 [Byte.x7b]) = None
  /\ exists ev s1,
       task_step (subscribed bad_local) = Some s1
       /\ task s1 = at_send ev leave
       /\ Event_Type ev = EventError.
Proof.
  assert (H1 : Subscribe bad_local "dummy-id" = inl (subscribed bad_local))
    by reflexivity.
  assert (H2 : run [] (subscribed bad_local) = Some (subscribed bad_local))
    by reflexivity.
  assert (H3 : task (subscribed bad_local) = at_read) by reflexivity.
  assert (H4 : ReadMessage (conn (subscribed bad_local))
               = Some (Message 1 [Byte.x7b],
                       {| incoming := []; outgoing := []; closed := false |}))
    by reflexivity.
  assert (H5 : decodes (V := unit) (Message 1 [Byte.x7b]) = None) by reflexivity.
  repeat (split; [assumption|]).
  destruct (failure_reported_once bad_local "dummy-id" (subscribed bad_local)
              (subscribed bad_local) [] (Message 1 [Byte.x7b])
              {| incoming := []; outgoing := []; closed := false |}
              H1 H2 H3 H4 H5)
    as (ev & s1 & A & B & _ & C & _).
  exists ev, s1. auto.
Defined.

(** C4. [Close()] returns nil on the subscription to [bye.local], the
    close message having gone out on the open connection; the goroutine
    is not stopped by it, and the consumer afterwards receives the event of
    the frame the endpoint pushed and the error event of the endpoint's
    closing. *)
Theorem events_after_Close :
  exists s1 s2,
    run [call_Close None] (subscribed bye_local) = Some s1
    /\ Close_returns s1 = [None]
    /\ outgoing (conn s1)
       = [{| frame_type := 8; frame_data := [Byte.x03; Byte.xe8] |}]
    /\ closed (conn s1) = false
    /\ received s1 = []
    /\ run [run_task; receive; run_task; receive] s1 = Some s2
    /\ received s2
       = [ event_of EventRunCreated;
           {| Event_Type := EventError;
              Event_Payload := payload_string
                ("websocket read error: websocket: close 1000 (normal)"
                 ++ newline)%string |} ].
Proof.
  eexists; eexists.
  split; [reflexivity|]. cbn.
  repeat (split; [reflexivity|]). reflexivity.
Qed.

(** In general: no step after a [Close()] that returned nil is prevented
    by it, so whatever the goroutine and the consumer could do before,
    they can do after. *)
Lemma Close_nil_transparent {V : Type} {imports : Imports V}
  (s s' t : system V) (a : action) :
  step (call_Close None) s = Some s' ->
  (a = run_task \/ a = receive) ->
  step a s = Some t ->
  exists t', step a s' = Some t'
             /\ task t' = task t /\ received t' = received t.
Proof.
  intros Hc Ha Hs. destruct (Close_nil s s' Hc) as (_ & _ & _ & _ & Ht & Hch & Hr & Hi).
  destruct Ha as [-> | ->]; cbn in *.
  - unfold task_step in *. rewrite Ht, Hch, Hr. unfold ReadMessage in *. rewrite Hi.
    destruct (task s) as [|ev k| |].
    + destruct (incoming (conn s)) as [|r rest]; [discriminate|].
      destruct r as [mt msg|err]; [destruct (Unmarshal msg)|];
        injection Hs as <-; eexists; split; try reflexivity; cbn; auto.
    + destruct (_ <? _)%nat; [|discriminate].
      injection Hs as <-; eexists; split; try reflexivity; cbn; auto.
    + injection Hs as <-; eexists; split; try reflexivity; cbn; auto.
    + discriminate.
  - unfold consumer_recv in *. rewrite Ht, Hch, Hr.
    destruct (buf (ch s)).
    + destruct (task s); try discriminate.
      injection Hs as <-; eexists; split; try reflexivity; cbn; auto.
    + injection Hs as <-; eexists; split; try reflexivity; cbn; auto.
Qed.

End EventsFacts.


(** ** The log reader's end of stream *)

Module LogStreamFacts.
Import LogStream.
Local Open Scope list_scope.

Section Facts.
Variable env : Remote.
Variable pol : Policy.

(** The pause neither fetches nor consults, and keeps the offset. *)
Lemma pause_keeps (r r' : Reader) (interval : Z) (tr tr' : list io) :
  pause env r interval tr = inl (r', tr') ->
  offset r' = offset r /\ fetches r' = fetches r
  /\ consultations r' = consultations r
  /\ exists mid, tr' = tr ++ mid.
Proof.
  unfold pause, do_check.
  destruct (cancelled env (checks r)); [discriminate|]. cbn.
  destruct (cancelled env (S (checks r))); [discriminate|].
  intros H. injection H as <- <-. cbn. eauto.
Qed.

(** An end of stream comes right after a terminal answer of the predicate
    followed by an empty fetch, both recorded last in the trace. *)
Lemma read_from_end (fuel : nat) :
  forall (r : Reader) (attempts : nat) (interval : Z) (tr : list io)
         (r' : Reader) (tr' : list io),
    read_from fuel env pol r attempts interval tr = Some (EndOfStream, r', tr') ->
    exists pre,
      tr' = pre ++ [Consult (inl true); Fetch (offset r') (Fetched [])]
      /\ predicate env (pred (consultations r')) = inl true
      /\ fetch env (pred (fetches r')) (offset r') = Fetched [].
Proof.
  induction fuel as [|fuel IH]; intros r attempts interval tr r' tr' H;
    [discriminate|].
  cbn [read_from] in H. unfold do_fetch in H.
  destruct (fetch env (fetches r) (offset r)) as [[|b bs]|err|err] eqn:Hf.
  - unfold do_consult in H. cbn -[pause] in H.
    destruct (predicate env (consultations r)) as [[|]|err] eqn:Hp.
    + cbn -[pause] in H.
      destruct (fetch env (S (fetches r)) (offset r)) as [[|b bs]|err|err] eqn:Hf2;
        try discriminate.
      injection H as <- <-. cbn.
      exists (tr ++ [Fetch (offset r) (Fetched [])]).
      rewrite <- !app_assoc. cbn. auto.
    + destruct (pause env _ interval _) as [[r3 tr3]|[r3 tr3]] eqn:Hpa;
        [|discriminate].
      exact (IH _ _ _ _ _ _ H).
    + discriminate.
  - discriminate.
  - destruct (attempt_ceiling pol <=? S attempts)%nat; [discriminate|].
    destruct (pause env _ interval _) as [[r2 tr2]|[r2 tr2]] eqn:Hpa;
      [|discriminate].
    exact (IH _ _ _ _ _ _ H).
  - discriminate.
Qed.

(** With a predicate that never answers terminal there is no end of
    stream. *)
Lemma read_from_open (fuel : nat) :
  (forall n, predicate env n <> inl true) ->
  forall (r : Reader) (attempts : nat) (interval : Z) (tr : list io)
         (r' : Reader) (tr' : list io),
    read_from fuel env pol r attempts interval tr <> Some (EndOfStream, r', tr').
Proof.
  intros Hnever r attempts interval tr r' tr' H.
  destruct (read_from_end fuel _ _ _ _ _ _ H) as (_ & _ & Hp & _).
  exact (Hnever _ Hp).
Qed.

(** C2. A read operation that signals end of stream has, as its last two
    doings, consulted the predicate with the answer terminal and then
    fetched zero bytes at its offset.  And while the predicate never answers
    terminal, no read operation signals end of stream, however many rounds
    of empty fetches it is given. *)
Theorem end_of_stream_only_after_terminal (r : Reader) :
  (forall fuel r' tr,
     Read fuel env pol r = Some (EndOfStream, r', tr) ->
     exists pre,
       tr = pre ++ [Consult (inl true); Fetch (offset r') (Fetched [])]
       /\ predicate env (pred (consultations r')) = inl true
       /\ fetch env (pred (fetches r')) (offset r') = Fetched [])
  /\ ((forall n, predicate env n <> inl true) ->
      forall fuel r' tr, Read fuel env pol r <> Some (EndOfStream, r', tr)).
Proof.
  split.
  - intros fuel r' tr H. exact (read_from_end fuel _ _ _ _ _ _ H).
  - intros Hnever fuel r' tr. now apply read_from_open.
Qed.
End Facts.

Import Fixtures.

(** Three rounds of an empty fetch with the predicate answering not
    terminal, then a fourth with the answer terminal and one more empty
    fetch: the read blocks through three rounds and ends the stream in the
    fourth. *)
Example fourth_check_ends :
  Read 3 silent_job half_second fresh_reader = None
  /\ option_map (fun x => (fst (fst x), fetches (snd (fst x)),
                           consultations (snd (fst x))))
       (Read 4 silent_job half_second fresh_reader)
     = Some (EndOfStream, 5%nat, 4%nat).
Proof. split; reflexivity. Qed.

(** The waits between the rounds: 500, 1000, 2000 (the ceiling). *)
Example fourth_check_waits :
  option_map (fun x => filter (fun i => match i with Wait _ => true | _ => false end)
                         (snd x))
    (Read 4 silent_job half_second fresh_reader)
  = Some [Wait 500; Wait 1000; Wait 2000].
Proof. reflexivity. Qed.

(** A job that never ends keeps the read blocked. *)
Example endless_blocks : Read 50 endless_job half_second fresh_reader = None.
Proof. reflexivity. Qed.

Lemma end_of_stream_only_after_terminal_witness :
  (exists r' tr, Read 4 silent_job half_second fresh_reader
                 = Some (EndOfStream, r', tr)
                 /\ exists pre,
                      tr = pre ++ [Consult (inl true);
                                   Fetch (offset r') (Fetched [])])
  /\ (forall n, predicate endless_job n <> inl true)
  /\ forall fuel r' tr,
       Read fuel endless_job half_second fresh_reader <> Some (EndOfStream, r', tr).
Proof.
  assert (Hnever : forall n, predicate endless_job n <> inl true)
    by (intros n; discriminate).
  assert (HR : exists r' tr, Read 4 silent_job half_second fresh_reader
                             = Some (EndOfStream, r', tr))
    by (eexists; eexists; vm_compute; reflexivity).
  split; [|split; [exact Hnever|]].
  - destruct HR as (r' & tr & HR).
    exists r', tr. split; [exact HR|].
    destruct (proj1 (end_of_stream_only_after_terminal silent_job half_second
                       fresh_reader) 4%nat r' tr HR) as (pre & Htr & _).
    exists pre. exact Htr.
  - exact (proj2 (end_of_stream_only_after_terminal endless_job half_second
                    fresh_reader) Hnever).
Defined.

End LogStreamFacts.


(** ** Patterns and identifiers *)

Module RegexpFacts.
Import Validation Regexp.

Lemma append_empty (s1 s2 : string) : s1 ++ s2 = "" -> s1 = "" /\ s2 = "".
Proof. destruct s1; [simpl; auto | discriminate]. Qed.

Lemma append_nil_r (s : string) : s ++ "" = s.
Proof. induction s as [|c s IH]; simpl; [reflexivity | now rewrite IH]. Qed.

Lemma append_assoc (a b c : string) : (a ++ b) ++ c = a ++ b ++ c.
Proof. induction a as [|x a IH]; simpl; [reflexivity | now rewrite IH]. Qed.

Lemma nullable_lang (r : regex) : nullable r = true <-> lang r "".
Proof.
  split.
  - induction r as [| |cls|r1 IH1 r2 IH2|r1 IH1 r2 IH2|r IH]; simpl; intros H;
      try discriminate.
    + constructor.
    + apply andb_true_iff in H. destruct H as [H1 H2].
      exact (lang_seq r1 r2 "" "" (IH1 H1) (IH2 H2)).
    + apply orb_true_iff in H. destruct H as [H|H];
        [apply lang_alt_l | apply lang_alt_r]; auto.
    + constructor.
  - intros H. remember "" as s eqn:Hs.
    induction H as [|cls c Hc|r1 r2 s1 s2 H1 IH1 H2 IH2|r1 r2 s H IH|r1 r2 s H IH
                   |r|r s1 s2 H1 IH1 H2 IH2]; simpl; try reflexivity.
    + discriminate.
    + apply append_empty in Hs. destruct Hs as [-> ->].
      now rewrite IH1, IH2.
    + now rewrite IH.
    + rewrite IH by assumption. apply orb_true_r.
Qed.

(** A starred text that begins with [c] begins with a piece of [r] that
    begins with [c]. *)
Lemma star_head (r : regex) (c : ascii) (s : string) :
  lang (Star r) (String c s) ->
  exists s1 s2, s = s1 ++ s2 /\ lang r (String c s1) /\ lang (Star r) s2.
Proof.
  intros H. remember (Star r) as r' eqn:Hr. remember (String c s) as t eqn:Ht.
  revert s Ht.
  induction H as [|cls c' Hc|r1 r2 s1 s2 H1 IH1 H2 IH2|r1 r2 s' H IH|r1 r2 s' H IH
                 |r0|r0 s1 s2 H1 IH1 H2 IH2]; intros s Ht; try discriminate.
  injection Hr as ->.
  destruct s1 as [|c1 s1].
  - simpl in Ht. apply IH2; auto.
  - simpl in Ht. injection Ht as -> <-. exists s1, s2. auto.
Qed.

Lemma deriv_lang (r : regex) :
  forall (c : ascii) (s : string), lang (deriv c r) s <-> lang r (String c s).
Proof.
  induction r as [| |cls|r1 IH1 r2 IH2|r1 IH1 r2 IH2|r IH]; intros c s; simpl.
  - split; intros H; inversion H.
  - split; intros H; inversion H.
  - destruct (in_class cls c) eqn:Hc.
    + split; intros H; inversion H; subst.
      * now constructor.
      * constructor.
    + split; intros H; inversion H; subst. congruence.
  - assert (Hseq : lang (Seq (deriv c r1) r2) s
                   <-> exists s1 s2, s = s1 ++ s2 /\ lang r1 (String c s1) /\ lang r2 s2).
    { split.
      - intros H. inversion H; subst. eexists; eexists. split; [reflexivity|].
        split; [now apply IH1 | assumption].
      - intros (s1 & s2 & -> & H1 & H2). constructor; [now apply IH1 | assumption]. }
    assert (Hsplit : lang (Seq r1 r2) (String c s)
                     <-> (exists s1 s2, s = s1 ++ s2 /\ lang r1 (String c s1) /\ lang r2 s2)
                         \/ (lang r1 "" /\ lang r2 (String c s))).
    { split.
      - intros H. inversion H as [| |ra rb s1 s2 H1 H2 Hr Hs| | | |]; subst.
        destruct s1 as [|c1 s1]; simpl in Hs.
        + right. subst. auto.
        + injection Hs as -> <-. left. eauto.
      - intros [(s1 & s2 & -> & H1 & H2)|[H1 H2]].
        + exact (lang_seq r1 r2 (String c s1) s2 H1 H2).
        + exact (lang_seq r1 r2 "" (String c s) H1 H2). }
    rewrite Hsplit. destruct (nullable r1) eqn:Hn.
    + split.
      * intros H. inversion H; subst.
        -- left. now apply Hseq.
        -- right. split; [now apply nullable_lang | now apply IH2].
      * intros [H|[H1 H2]].
        -- apply lang_alt_l. now apply Hseq.
        -- apply lang_alt_r. now apply IH2.
    + rewrite Hseq. split; [auto|].
      intros [H|[H1 _]]; [exact H|].
      apply nullable_lang in H1. congruence.
  - split; intros H; inversion H; subst.
    + apply lang_alt_l. now apply IH1.
    + apply lang_alt_r. now apply IH2.
    + apply lang_alt_l. now apply IH1.
    + apply lang_alt_r. now apply IH2.
  - split.
    + intros H. inversion H; subst.
      exact (lang_star_cons r (String c s1) s2 (proj1 (IH c s1) H2) H4).
    + intros H. apply star_head in H. destruct H as (s1 & s2 & -> & H1 & H2).
      constructor; [now apply IH | assumption].
Qed.

(** The matcher accepts exactly the texts of the pattern. *)
Lemma matches_lang (s : string) : forall r : regex, matches r s = true <-> lang r s.
Proof.
  induction s as [|c s IH]; intros r; simpl.
  - apply nullable_lang.
  - rewrite IH. apply deriv_lang.
Qed.

(** *** Character classes *)

Lemma all_in_class_app (cls : list class_item) (a b : string) :
  all_in_class cls (a ++ b) = all_in_class cls a && all_in_class cls b.
Proof.
  induction a as [|c a IH]; simpl; [reflexivity|].
  now rewrite IH, andb_assoc.
Qed.

Lemma all_in_class_mono (cls1 cls2 : list class_item) (s : string) :
  (forall c, in_class cls1 c = true -> in_class cls2 c = true) ->
  all_in_class cls1 s = true -> all_in_class cls2 s = true.
Proof.
  intros Hsub. induction s as [|c s IH]; simpl; [auto|].
  rewrite !andb_true_iff. intros [H1 H2]. auto.
Qed.

Lemma all_in_class_Forall (cls : list class_item) (s : string) :
  all_in_class cls s = true
  <-> Forall (fun c => in_class cls c = true) (list_ascii_of_string s).
Proof.
  induction s as [|c s IH]; simpl.
  - split; [constructor | reflexivity].
  - rewrite andb_true_iff, IH. split.
    + intros [H1 H2]. now constructor.
    + intros H. inversion H; subst. auto.
Qed.

Lemma in_class_reStringID (c : ascii) :
  in_class reStringID c = true <-> id_char c.
Proof.
  unfold in_class, reStringID, id_char, in_item. cbn [existsb].
  change (nat_of_ascii "a") with 97%nat. change (nat_of_ascii "z") with 122%nat.
  change (nat_of_ascii "A") with 65%nat. change (nat_of_ascii "Z") with 90%nat.
  change (nat_of_ascii "0") with 48%nat. change (nat_of_ascii "9") with 57%nat.
  change (nat_of_ascii "-") with 45%nat. change (nat_of_ascii ".") with 46%nat.
  change (nat_of_ascii "_") with 95%nat.
  rewrite !orb_true_iff, !andb_true_iff, !Nat.leb_le, !Nat.eqb_eq.
  intuition (try discriminate).
Qed.

Lemma in_class_dot (c : ascii) : in_class [Lit "."] c = true <-> c = "."%char.
Proof.
  unfold in_class, in_item. cbn [existsb]. rewrite orb_false_r, Nat.eqb_eq.
  split.
  - intros H. rewrite <- (ascii_nat_embedding c), H. reflexivity.
  - intros ->. reflexivity.
Qed.

Lemma digit_is_id_char (c : ascii) :
  in_class [Range "0" "9"] c = true -> in_class reStringID c = true.
Proof.
  unfold in_class, reStringID. cbn [existsb]. rewrite orb_false_r.
  intros ->. now rewrite !orb_true_r.
Qed.

Lemma dot_is_id_char (c : ascii) :
  in_class [Lit "."] c = true -> in_class reStringID c = true.
Proof. intros H. apply in_class_dot in H. subst. reflexivity. Qed.

(** *** Runs of one class *)

Lemma lang_star_chars (cls : list class_item) (s : string) :
  lang (Star (Chars cls)) s <-> all_in_class cls s = true.
Proof.
  split.
  - intros H. remember (Star (Chars cls)) as r eqn:Hr.
    induction H as [|cls' c Hc|r1 r2 s1 s2 H1 IH1 H2 IH2|r1 r2 s H IH|r1 r2 s H IH
                   |r0|r0 s1 s2 H1 IH1 H2 IH2]; try discriminate.
    + reflexivity.
    + injection Hr as ->. rewrite all_in_class_app, (IH2 eq_refl), andb_true_r.
      inversion H1; subst. simpl. now rewrite andb_true_r.
  - induction s as [|c s IH]; simpl; intros H.
    + constructor.
    + apply andb_true_iff in H. destruct H as [Hc Hs].
      exact (lang_star_cons (Chars cls) (String c "") s
               (lang_chars cls c Hc) (IH Hs)).
Qed.

Lemma lang_plus_chars (cls : list class_item) (s : string) :
  lang (Plus (Chars cls)) s <-> s <> "" /\ all_in_class cls s = true.
Proof.
  unfold Plus. split.
  - intros H. inversion H as [| |r1 r2 s1 s2 H1 H2 Hr Hs| | | |]; subst.
    inversion H1; subst. simpl. split; [discriminate|].
    apply lang_star_chars in H2. now rewrite H2, andb_true_r.
  - intros [Hne H]. destruct s as [|c s]; [now elim Hne|].
    simpl in H. apply andb_true_iff in H. destruct H as [Hc Hs].
    exact (lang_seq (Chars cls) (Star (Chars cls)) (String c "") s
             (lang_chars cls c Hc) (proj2 (lang_star_chars cls s) Hs)).
Qed.

Lemma MatchString_pattern (cls : list class_item) (s : string) :
  MatchString cls s = matches (Plus (Chars cls)) s.
Proof.
  destruct (matches (Plus (Chars cls)) s) eqn:Hm.
  - apply matches_lang, lang_plus_chars in Hm. now apply ValidationFacts.MatchString_all.
  - destruct (MatchString cls s) eqn:HM; [|reflexivity].
    apply ValidationFacts.MatchString_all, lang_plus_chars, matches_lang in HM.
    congruence.
Qed.

Lemma lang_dot (s : string) : lang dot s <-> s = ".".
Proof.
  unfold dot. split.
  - intros H. inversion H as [|cls c Hc| | | | |]; subst.
    apply in_class_dot in Hc. now subst.
  - intros ->. now constructor.
Qed.

(** *** Identifiers *)

(** X1. [validStringID] accepts exactly the non-empty strings all of whose
    characters are ASCII letters, digits, hyphens, periods or underscores;
    it is the whole-text match of the pattern [[a-zA-Z0-9\-\._]+]. *)
Theorem validStringID_characters (s : string) :
  (validStringID (Some s) = true
   <-> s <> "" /\ Forall id_char (list_ascii_of_string s))
  /\ validStringID (Some s) = matches reStringID_pattern s.
Proof.
  split.
  - cbn [validStringID]. rewrite ValidationFacts.MatchString_all, all_in_class_Forall.
    split; intros [Hne H]; (split; [exact Hne|]);
      (eapply Forall_impl; [|exact H]); intros c; apply in_class_reStringID.
  - apply MatchString_pattern.
Qed.

(** X2. Identifiers compose: a concatenation is a valid identifier
    exactly when it is not empty and each part is empty or a valid
    identifier. *)
Theorem validStringID_append (a b : string) :
  validStringID (Some (a ++ b)) = true
  <-> (a <> "" \/ b <> "")
      /\ (a = "" \/ validStringID (Some a) = true)
      /\ (b = "" \/ validStringID (Some b) = true).
Proof.
  cbn [validStringID]. rewrite !ValidationFacts.MatchString_all, all_in_class_app,
    andb_true_iff.
  split.
  - intros [Hne [Ha Hb]]. split; [|split].
    + destruct a; [right; simpl in Hne; exact Hne | left; discriminate].
    + destruct a; [now left | right; split; [discriminate | exact Ha]].
    + destruct b; [now left | right; split; [discriminate | exact Hb]].
  - intros (Hne & Ha & Hb). split; [|split].
    + intros H. apply append_empty in H. destruct H as [-> ->].
      destruct Hne as [H|H]; now elim H.
    + destruct Ha as [->|[_ Ha]]; [reflexivity | exact Ha].
    + destruct Hb as [->|[_ Hb]]; [reflexivity | exact Hb].
Qed.

(** X3. Whatever passes [validStringID] passes [validString]: an
    identifier is present and non-empty. *)
Theorem validStringID_validString (v : option string) :
  validStringID v = true -> validString v = true.
Proof.
  destruct v as [s|]; [|discriminate]. cbn.
  rewrite ValidationFacts.MatchString_all. intros [Hne _].
  destruct s; [now elim Hne | reflexivity].
Qed.

Lemma validStringID_validString_witness :
  validStringID (Some "my-team_1") = true /\ validString (Some "my-team_1") = true.
Proof.
  split; [reflexivity|].
  exact (validStringID_validString (Some "my-team_1") eq_refl).
Defined.

(** The converse fails: a name with a space is present but no identifier. *)
Example validString_not_ID :
  validString (Some "my team") = true /\ validStringID (Some "my team") = false.
Proof. split; reflexivity. Qed.

(** *** Semantic versions *)

(** The three runs of digits of a text the pattern accepts. *)
Lemma semantic_version_parts (v : string) :
  lang reSemanticVersion v ->
  exists a b c, v = a ++ "." ++ b ++ "." ++ c
                /\ digits a /\ digits b /\ digits c.
Proof.
  unfold reSemanticVersion, digits. intros H.
  inversion H as [| |r1 r2 a s1 Ha H1 Hr Hs| | | |]; subst.
  inversion H1 as [| |r1 r2 d1 s2 Hd1 H2 Hr Hs| | | |]; subst.
  inversion H2 as [| |r1 r2 b s3 Hb H3 Hr Hs| | | |]; subst.
  inversion H3 as [| |r1 r2 d2 c Hd2 Hc Hr Hs| | | |]; subst.
  apply lang_dot in Hd1, Hd2. subst.
  apply lang_plus_chars in Ha, Hb, Hc.
  exists a, b, c. auto.
Qed.

(** X4. [validSemanticVersion] accepts exactly the texts made of three
    non-empty runs of decimal digits separated by two periods. *)
Theorem validSemanticVersion_shape (v : string) :
  validSemanticVersion v = true
  <-> exists a b c, v = a ++ "." ++ b ++ "." ++ c
                    /\ digits a /\ digits b /\ digits c.
Proof.
  unfold validSemanticVersion. rewrite matches_lang. split.
  - apply semantic_version_parts.
  - unfold reSemanticVersion, digits. intros (a & b & c & -> & Ha & Hb & Hc).
    apply lang_plus_chars in Ha, Hb, Hc.
    repeat (constructor; try assumption); now apply lang_dot.
Qed.

Example validSemanticVersion_cases :
  map validSemanticVersion
    ["0.12.31"; "1.2"; "1.2.3.4"; "1..3"; "v1.2.3"; "1.2.3-beta"; ""; "1.2.x"]
  = [true; false; false; false; false; false; false; false].
Proof. reflexivity. Qed.

(** X5. Every semantic version is a valid string identifier. *)
Theorem validSemanticVersion_is_ID (v : string) :
  validSemanticVersion v = true -> validStringID (Some v) = true.
Proof.
  intros H. apply matches_lang, semantic_version_parts in H.
  destruct H as (a & b & c & -> & [Hna Ha] & [_ Hb] & [_ Hc]).
  cbn [validStringID]. apply ValidationFacts.MatchString_all. split.
  - destruct a; [now elim Hna | discriminate].
  - rewrite !all_in_class_app, !andb_true_iff.
    repeat split; try reflexivity;
      eapply all_in_class_mono; try eassumption; apply digit_is_id_char.
Qed.

Lemma validSemanticVersion_is_ID_witness :
  validSemanticVersion "0.12.31" = true /\ validStringID (Some "0.12.31") = true.
Proof.
  split; [reflexivity|].
  exact (validSemanticVersion_is_ID "0.12.31" eq_refl).
Defined.

End RegexpFacts.


(** ** The stream a subscription delivers *)

Module EventStreamFacts.
Import Events EventStream EventsFacts.
Local Open Scope list_scope.

Section Facts.
Context {V : Type} {imports : Imports V}.

Lemma step_pending (a : action) (s s' : system V) :
  unbuffered s -> step a s = Some s' ->
  received s' ++ pending s' = received s ++ pending s.
Proof.
  intros Hu Hs. destruct a as [| |net]; cbn in Hs.
  - unfold task_step in Hs. unfold pending at 2.
    destruct (task s) as [|ev k| |] eqn:Ht.
    + unfold ReadMessage in Hs.
      destruct (incoming (conn s)) as [|r rest] eqn:Hi; [discriminate|].
      destruct r as [mt msg|err]; cbn [expected].
      * destruct (Unmarshal msg) as [ev|err]; injection Hs as <-; reflexivity.
      * injection Hs as <-. reflexivity.
    + rewrite (proj1 Hu), (proj1 (proj2 Hu)) in Hs. discriminate.
    + injection Hs as <-. reflexivity.
    + discriminate.
  - unfold consumer_recv in Hs. rewrite (proj1 (proj2 Hu)) in Hs.
    unfold pending at 2.
    destruct (task s) as [|ev k| |] eqn:Ht; try discriminate.
    injection Hs as <-. unfold pending. cbn.
    destruct k; cbn; now rewrite <- app_assoc.
  - apply Close_inv in Hs. destruct Hs as (_ & Ht & Hr & Hi).
    unfold pending. now rewrite Ht, Hr, Hi.
Qed.

Lemma run_pending (sched : list action) :
  forall s s' : system V,
    unbuffered s -> run sched s = Some s' ->
    received s' ++ pending s' = received s ++ pending s.
Proof.
  induction sched as [|a sched IH]; intros s s' Hu Hrun; cbn in Hrun.
  - now injection Hrun as <-.
  - destruct (step a s) as [s1|] eqn:Hs; [|discriminate].
    rewrite (IH s1 s' (step_unbuffered a s s1 Hu Hs) Hrun).
    now apply (step_pending a).
Qed.

(** With the consumer receiving in lockstep, everything expected of the
    frames left is delivered. *)
Lemma lockstep_expected (rs : list read_result) :
  forall s : system V,
    unbuffered s -> task s = at_read -> incoming (conn s) = rs ->
    exists s', run (lockstep (length (expected rs))) s = Some s'
               /\ received s' = received s ++ expected rs.
Proof.
  induction rs as [|r rs IH]; intros s Hu Ht Hi.
  - exists s. cbn. now rewrite app_nil_r.
  - assert (Hb : buf (ch s) = []) by apply Hu.
    destruct r as [mt msg|err]; cbn [expected].
    + destruct (Unmarshal msg) as [ev|err] eqn:Hm.
      * cbn [length lockstep run step].
        unfold task_step, ReadMessage. rewrite Ht, Hi, Hm.
        unfold consumer_recv. cbn. rewrite Hb.
        match goal with
        | |- exists s', run _ ?s1 = _ /\ _ =>
            destruct (IH s1) as (s' & Hrun & Hr); [exact Hu | reflexivity | reflexivity |]
        end.
        exists s'. split; [exact Hrun|]. rewrite Hr. cbn. now rewrite <- app_assoc.
      * cbn [length lockstep run step].
        unfold task_step, ReadMessage. rewrite Ht, Hi, Hm.
        unfold consumer_recv. cbn. rewrite Hb.
        eexists; split; reflexivity.
    + cbn [length lockstep run step].
      unfold task_step, ReadMessage. rewrite Ht, Hi.
      unfold consumer_recv. cbn. rewrite Hb.
      eexists; split; reflexivity.
Qed.

(** X6. Whatever the frames and failures to come on a subscription's
    connection, the consumer receives the decodings of the frames up to
    the first failing read or decoding, then the one error event of that
    failure, and nothing of what follows: at every moment what it has
    received, followed by what is still pending, is that sequence; and with
    the consumer receiving, the whole sequence is delivered. *)
Theorem stream_delivered (e : events) (id : string) (s0 : system V) :
  Subscribe e id = inl s0 ->
  (forall sched s, run sched s0 = Some s ->
     expected (incoming (conn s0)) = received s ++ pending s)
  /\ (exists s, run (lockstep (length (expected (incoming (conn s0))))) s0 = Some s
                /\ received s = expected (incoming (conn s0))).
Proof.
  intros Hsub.
  destruct (Subscribe_inv e id s0 Hsub) as (_ & Ht0 & Hr0 & _ & Hu0).
  split.
  - intros sched s Hrun. rewrite (run_pending sched s0 s Hu0 Hrun).
    unfold pending. now rewrite Ht0, Hr0.
  - destruct (lockstep_expected (incoming (conn s0)) s0 Hu0 Ht0 eq_refl)
      as (s & Hrun & Hr).
    exists s. split; [exact Hrun|]. now rewrite Hr, Hr0.
Qed.

(** *** Teardown *)

Lemma step_closed_exited (a : action) (s s' : system V) :
  unbuffered s ->
  (closed (conn s) = true <-> task s = exited) ->
  step a s = Some s' ->
  (closed (conn s') = true <-> task s' = exited).
Proof.
  intros Hu Hce Hs. destruct a as [| |net]; cbn in Hs.
  - unfold task_step in Hs. destruct (task s) as [|ev k| |] eqn:Ht.
    + assert (Hc : closed (conn s) = false).
      { destruct (closed (conn s)); [|reflexivity]. destruct Hce as [H _].
        specialize (H eq_refl). discriminate. }
      unfold ReadMessage in Hs.
      destruct (incoming (conn s)) as [|r rest]; [discriminate|].
      destruct r as [mt msg|err]; [destruct (Unmarshal msg)|];
        injection Hs as <-; cbn; rewrite Hc; split; discriminate.
    + rewrite (proj1 Hu), (proj1 (proj2 Hu)) in Hs. discriminate.
    + injection Hs as <-. cbn. split; reflexivity.
    + discriminate.
  - unfold consumer_recv in Hs. rewrite (proj1 (proj2 Hu)) in Hs.
    destruct (task s) as [|ev k| |] eqn:Ht; try discriminate.
    injection Hs as <-. cbn.
    assert (Hc : closed (conn s) = false).
    { destruct (closed (conn s)); [|reflexivity]. destruct Hce as [H _].
      specialize (H eq_refl). discriminate. }
    rewrite Hc. destruct k; split; discriminate.
  - unfold Close, WriteMessage in Hs. destruct net as [err|].
    + injection Hs as <-. exact Hce.
    + destruct (closed (conn s)) eqn:Hc; [discriminate|].
      injection Hs as <-. cbn. exact Hce.
Qed.

Lemma step_leaving (a : action) (s s' : system V) :
  unbuffered s -> leaving s -> step a s = Some s' -> leaving s'.
Proof.
  intros Hu Hl Hs. unfold leaving in *. destruct a as [| |net]; cbn in Hs.
  - unfold task_step in Hs. destruct (task s) as [|ev k| |] eqn:Ht.
    + unfold ReadMessage in Hs.
      destruct (incoming (conn s)) as [|r rest]; [discriminate|].
      destruct r as [mt msg|err]; [destruct (Unmarshal msg)|];
        injection Hs as <-; cbn; auto.
    + rewrite (proj1 Hu), (proj1 (proj2 Hu)) in Hs. discriminate.
    + injection Hs as <-. cbn. exact Hl.
    + discriminate.
  - unfold consumer_recv in Hs. rewrite (proj1 (proj2 Hu)) in Hs.
    destruct (task s) as [|ev k| |] eqn:Ht; try discriminate.
    injection Hs as <-. destruct k; cbn; [exact I|].
    exists (received s), ev. auto.
  - apply Close_inv in Hs. destruct Hs as (_ & Ht & Hr & _).
    now rewrite Ht, Hr.
Qed.

(** X7. On a subscription whose connection was dialled open, the
    connection is closed locally exactly when the goroutine has exited,
    and the goroutine returns or has exited only after the consumer has
    received an event of type [EventError] as the last one: an error event
    nobody receives keeps the goroutine and the connection alive. *)
Theorem teardown_after_error_event (e : events) (id : string) (s0 : system V) :
  Subscribe e id = inl s0 ->
  closed (conn s0) = false ->
  forall sched s, run sched s0 = Some s ->
    (closed (conn s) = true <-> task s = exited)
    /\ (task s = at_return \/ task s = exited ->
        exists evs ev, received s = evs ++ [ev] /\ Event_Type ev = EventError).
Proof.
  intros Hsub Hc0 sched s Hrun.
  destruct (Subscribe_inv e id s0 Hsub) as (_ & Ht0 & _ & _ & Hu0).
  assert (Hinv : unbuffered s
                 /\ (closed (conn s) = true <-> task s = exited) /\ leaving s).
  { apply (run_invariant
             (fun x => unbuffered x
                       /\ (closed (conn x) = true <-> task x = exited)
                       /\ leaving x)) with (sched := sched) (s := s0).
    - intros a x y (Hu & Hce & Hl) Hs. split; [|split].
      + now apply (step_unbuffered a x).
      + now apply (step_closed_exited a x).
      + now apply (step_leaving a x).
    - split; [exact Hu0|]. split.
      + rewrite Hc0, Ht0. split; discriminate.
      + unfold leaving. now rewrite Ht0.
    - exact Hrun. }
  destruct Hinv as (_ & Hce & Hl). split; [exact Hce|].
  unfold leaving in Hl. intros [Ht|Ht]; rewrite Ht in Hl; exact Hl.
Qed.

(** *** Close, repeated *)

Lemma Close_nil_frame (s s' : system V) :
  step (call_Close None) s = Some s' ->
  outgoing (conn s') = outgoing (conn s) ++ [close_frame]
  /\ Close_returns s' = Close_returns s ++ [None]
  /\ closed (conn s') = false
  /\ task s' = task s /\ ch s' = ch s /\ received s' = received s
  /\ incoming (conn s') = incoming (conn s).
Proof. intros H. apply Close_nil in H. unfold close_frame. tauto. Qed.

End Facts.

Import Fixtures.

(** On [bye.local]: one frame, then the endpoint closes its side. *)
Example bye_local_stream :
  expected (incoming (conn (subscribed bye_local)))
  = [ event_of EventRunCreated;
      read_error_event (errors_New "websocket: close 1000 (normal)") ].
Proof. reflexivity. Qed.

Lemma stream_delivered_witness :
  Subscribe bye_local "dummy-id" = inl (subscribed bye_local)
  /\ exists s, run (lockstep 2) (subscribed bye_local) = Some s
               /\ received s
                  = [ event_of EventRunCreated;
                      read_error_event
                        (errors_New "websocket: close 1000 (normal)") ].
Proof.
  assert (H : Subscribe bye_local "dummy-id" = inl (subscribed bye_local))
    by reflexivity.
  split; [exact H|].
  exact (proj2 (stream_delivered bye_local "dummy-id" (subscribed bye_local) H)).
Defined.

Lemma teardown_after_error_event_witness :
  Subscribe bye_local "dummy-id" = inl (subscribed bye_local)
  /\ closed (conn (subscribed bye_local)) = false
  /\ exists s, run [run_task; receive; run_task; receive; run_task]
                 (subscribed bye_local) = Some s
               /\ (closed (conn s) = true <-> task s = exited).
Proof.
  assert (H : Subscribe bye_local "dummy-id" = inl (subscribed bye_local))
    by reflexivity.
  assert (Hc : closed (conn (subscribed bye_local)) = false) by reflexivity.
  split; [exact H|]. split; [exact Hc|].
  assert (Hrun : exists s, run [run_task; receive; run_task; receive; run_task]
                             (subscribed bye_local) = Some s)
    by (eexists; vm_compute; reflexivity).
  destruct Hrun as (s & Hrun). exists s. split; [exact Hrun|].
  exact (proj1 (teardown_after_error_event bye_local "dummy-id"
                  (subscribed bye_local) H Hc _ s Hrun)).
Defined.


End EventStreamFacts.


(** ** More on plan and run operations *)

Module PlansRunsMore.
Import Types Validation Transport.

Section Plans.
Import Plans.
Context {W Ctx Req ListOptions Run RunList URL : Type}.
Context {net_url : NetURL URL}.
Variable s : plans W Ctx Req ListOptions Run RunList.
Variable ctx : Ctx.

(** X9. [Read] and [JSONOutput] of a plan refuse an identifier that does
    not validate with the error "invalid value for plan ID", whatever the
    client, in a world left as it was: no request is built or sent. *)
Theorem plan_id_rejected (planID : string) (w : W) :
  validStringID (Some planID) = false ->
  Read s ctx planID w = (inr (errors_New "invalid value for plan ID"), w)
  /\ JSONOutput s ctx planID w = (inr (errors_New "invalid value for plan ID"), w).
Proof.
  intros H. unfold Read, JSONOutput. rewrite H. split; reflexivity.
Qed.

(** X10. The completion predicate reads the plan by the identifier the
    service returned, not by the one the caller gave.  When [Logs] has
    returned a reader for a plan whose returned identifier does not
    validate (an empty one, say), every call of the reader's predicate
    answers [false] with the error "invalid value for plan ID", without
    any request. *)
Theorem done_needs_returned_id (planID : string) (w w' : W) (p : Plan)
  (lr : LogReader W Ctx Req ListOptions Run RunList URL) :
  Read s ctx planID w = (inl p, w') ->
  validStringID (Some (ID p)) = false ->
  Logs s ctx planID w = (inl lr, w') ->
  forall w2 : W,
    LogReader_done lr w2
    = ((false, Some (errors_New "invalid value for plan ID")), w2).
Proof.
  intros HR Hid HL w2. unfold Logs, bind in HL.
  destruct (negb (validStringID (Some planID))); [discriminate|].
  rewrite HR in HL.
  destruct (String.eqb (LogReadURL p) ""); [discriminate|].
  destruct (Parse (LogReadURL p)) as [u|err]; [|discriminate].
  injection HL as <-. cbn [LogReader_done].
  unfold done, bind, Read. now rewrite Hid.
Qed.
End Plans.

Section Runs.
Import Runs.
Context {W Ctx Req ListOptions Run RunList URL : Type}.
Context {net_url : NetURL URL} {sentinels : Sentinels}.
Variable s : runs W Ctx Req ListOptions Run RunList.
Variable ctx : Ctx.

(** X11. [GetPlanFile] does not check the run identifier.  For an
    identifier the other run operations refuse, [Read] returns
    [ErrInvalidRunID] in an untouched world, while [GetPlanFile] asks
    [newRequest] for [/runs/<id>/plan] and, when that fails, returns its
    error in the world [newRequest] left. *)
Theorem GetPlanFile_no_id_check (id : string) (o : PlanFileOptions) (w w' : W)
  (err : error) :
  validStringID (Some id) = false ->
  newRequest (client s) "GET" ("/runs/" ++ QueryEscape id ++ "/plan")
    (body_PlanFileOptions o) w = (inr err, w') ->
  Read s ctx id w = (inr ErrInvalidRunID, w)
  /\ GetPlanFile s ctx id o w = (inr err, w').
Proof.
  intros Hid Hreq. split.
  - unfold Read, ReadWithOptions. now rewrite Hid.
  - unfold GetPlanFile, bind. now rewrite Hreq.
Qed.
End Runs.

Import Fixtures MoreFixtures.

Lemma plan_id_rejected_witness :
  validStringID (Some "plan 1") = false
  /\ Plans.JSONOutput the_plans tt "plan 1" []
     = (inr (errors_New "invalid value for plan ID"), []).
Proof.
  split; [reflexivity|].
  exact (proj2 (plan_id_rejected the_plans tt "plan 1" [] eq_refl)).
Defined.

Lemma done_needs_returned_id_witness :
  exists lr,
    Plans.Logs anonymous_plans tt "plan-1" [] = (inl lr, ["GET plans/plan-1"])
    /\ Plans.LogReader_done lr ["GET plans/plan-1"]
       = ((false, Some (errors_New "invalid value for plan ID")),
          ["GET plans/plan-1"]).
Proof.
  assert (HL : exists lr, Plans.Logs anonymous_plans tt "plan-1" []
                          = (inl lr, ["GET plans/plan-1"]))
    by (eexists; reflexivity).
  destruct HL as (lr & HL). exists lr. split; [exact HL|].
  assert (HR : Plans.Read anonymous_plans tt "plan-1" []
               = (inl anonymous_plan, ["GET plans/plan-1"])) by reflexivity.
  assert (Hid : validStringID (Some (ID anonymous_plan)) = false) by reflexivity.
  exact (done_needs_returned_id anonymous_plans tt "plan-1" []
           ["GET plans/plan-1"] anonymous_plan lr HR Hid HL ["GET plans/plan-1"]).
Defined.

Lemma GetPlanFile_no_id_check_witness :
  validStringID (Some "") = false
  /\ Runs.Read refused_runs tt "" [] = (inr Runs.ErrInvalidRunID, [])
  /\ Runs.GetPlanFile refused_runs tt "" {| PlanFileOptions_Format := "json" |} []
     = (inr (errors_New "cannot build request"), ["GET /runs//plan"]).
Proof.
  assert (Hid : validStringID (Some "") = false) by reflexivity.
  split; [exact Hid|].
  exact (GetPlanFile_no_id_check (URL := string) refused_runs tt ""
           {| PlanFileOptions_Format := "json" |} [] ["GET /runs//plan"]
           (errors_New "cannot build request") Hid eq_refl).
Defined.

End PlansRunsMore.


(** ** Team operations *)

Module TeamsFacts.
Import Validation Transport Crud Teams.

Section Facts.
Context {W Ctx Req ListOptions Team TeamList URL : Type}.
Context {net_url : NetURL URL} {sentinels : Sentinels}.
Variable s : teams W Ctx Req ListOptions Team TeamList.
Variable ctx : Ctx.

(** X12. A team operation given an identifier that does not validate
    returns at once, in a world left as it was: [List] and [Create] return
    [ErrInvalidOrg] for such an organization (whatever the options, a
    missing name included), and [Read], [Update] and [Delete] return the
    error "invalid value for team ID" for such a team identifier. *)
Theorem team_ids_rejected (id : string) (w : W) :
  validStringID (Some id) = false ->
  (forall o, List s ctx id o w = (inr ErrInvalidOrg, w))
  /\ (forall o, Create s ctx id o w = (inr ErrInvalidOrg, w))
  /\ Read s ctx id w = (inr (errors_New "invalid value for team ID"), w)
  /\ (forall o, Update s ctx id o w
                = (inr (errors_New "invalid value for team ID"), w))
  /\ Delete s ctx id w = (Some (errors_New "invalid value for team ID"), w).
Proof.
  intros H. unfold List, Create, Read, Update, Delete. rewrite H. repeat split.
Qed.

(** X13. [Create] of a team, for a valid organization: a name that is nil
    or empty yields [ErrRequiredName] with no request; every other name,
    identifier-shaped or not, goes to the service, and [Create] returns
    what [newRequest] and then [do] yield for
    [POST organizations/<org>/teams]. *)
Theorem team_Create_name (organization : string) (o : TeamCreateOptions) (w : W) :
  validStringID (Some organization) = true ->
  (TeamCreateOptions_Name o = None \/ TeamCreateOptions_Name o = Some "" ->
   Create s ctx organization o w = (inr ErrRequiredName, w))
  /\ (forall name, TeamCreateOptions_Name o = Some name -> name <> "" ->
      match newRequest (client s) "POST"
              ("organizations/" ++ QueryEscape organization ++ "/teams")
              (body_TeamCreateOptions o) w with
      | (inr err, w') => Create s ctx organization o w = (inr err, w')
      | (inl req, w') =>
          Create s ctx organization o w = do (client s) into_Team ctx req w'
      end).
Proof.
  intros Horg. unfold Create, TeamCreateOptions_valid. rewrite Horg. cbn [negb].
  split.
  - intros [Hn|Hn]; rewrite Hn; reflexivity.
  - intros name Hn Hne. rewrite Hn.
    assert (Hv : validString (Some name) = true).
    { cbn. destruct name; [now elim Hne | reflexivity]. }
    rewrite Hv. cbn [negb]. unfold bind.
    destruct (newRequest (client s) "POST" _ _ w) as [[req|err] w']; [|reflexivity].
    destruct (do (client s) into_Team ctx req w') as [[t|err] w'']; reflexivity.
Qed.
End Facts.

Import Fixtures CrudFixtures.

Lemma team_ids_rejected_witness :
  validStringID (Some "my org") = false
  /\ Create the_teams tt "my org" (team_named None) [] = (inr ErrInvalidOrg, [])
  /\ Delete the_teams tt "my org" [] 
     = (Some (errors_New "invalid value for team ID"), []).
Proof.
  assert (H : validStringID (Some "my org") = false) by reflexivity.
  destruct (team_ids_rejected (URL := string) the_teams tt "my org" [] H)
    as (_ & HC & _ & _ & HD).
  split; [exact H|]. split; [apply HC | exact HD].
Defined.

(** A team may be called "my team!": the name is sent as it is. *)
Lemma team_Create_name_witness :
  validStringID (Some "my-org") = true
  /\ Create the_teams tt "my-org" (team_named (Some "")) []
     = (inr ErrRequiredName, [])
  /\ Create the_teams tt "my-org" (team_named (Some "my team!")) []
     = (inl tt, ["POST organizations/my-org/teams"]).
Proof.
  assert (H : validStringID (Some "my-org") = true) by reflexivity.
  split; [exact H|]. split.
  - apply (proj1 (team_Create_name (URL := string) the_teams tt "my-org"
                    (team_named (Some "")) [] H)).
    now right.
  - assert (Hne : "my team!" <> "") by discriminate.
    exact (proj2 (team_Create_name (URL := string) the_teams tt "my-org"
                    (team_named (Some "my team!")) [] H)
             "my team!" eq_refl Hne).
Defined.

End TeamsFacts.

(** ** Policy set operations *)

Module PolicySetsFacts.
Import Validation Transport Crud PolicySets.

Section Facts.
Context {W Ctx Req ListOptions Policy VCSRepoOptions Workspace : Type}.
Context {PolicySet PolicySetList URL : Type}.
Context {net_url : NetURL URL} {sentinels : Sentinels}.
Variable s : policySets W Ctx Req ListOptions Policy VCSRepoOptions Workspace
               PolicySet PolicySetList.
Variable ctx : Ctx.

(** X14. [PolicySetCreateOptions.valid]: a name that is nil or empty gives
    [ErrRequiredName]; a non-empty name that is no valid identifier gives
    [ErrInvalidName]; a name that is a valid identifier gives nil; and nil
    is given in that case only. *)
Theorem policy_set_create_valid
  (o : PolicySetCreateOptions Policy VCSRepoOptions Workspace) :
  (PolicySetCreateOptions_Name o = None \/ PolicySetCreateOptions_Name o = Some "" ->
   PolicySetCreateOptions_valid o = Some ErrRequiredName)
  /\ (forall name, PolicySetCreateOptions_Name o = Some name -> name <> "" ->
      validStringID (Some name) = false ->
      PolicySetCreateOptions_valid o = Some ErrInvalidName)
  /\ (PolicySetCreateOptions_valid o = None
      <-> exists name, PolicySetCreateOptions_Name o = Some name
                       /\ validStringID (Some name) = true).
Proof.
  unfold PolicySetCreateOptions_valid. split; [|split].
  - intros [H|H]; rewrite H; reflexivity.
  - intros name Hn Hne Hid. rewrite Hn, Hid.
    destruct name; [now elim Hne | reflexivity].
  - destruct (PolicySetCreateOptions_Name o) as [name|].
    + destruct (validString (Some name)) eqn:Hv; cbn [negb].
      * destruct (validStringID (Some name)) eqn:Hid; cbn [negb].
        -- split; [eauto | reflexivity].
        -- split; [discriminate|]. intros (n & Hn & Hn'). injection Hn as <-. congruence.
      * split; [discriminate|]. intros (n & Hn & Hn'). injection Hn as <-.
        destruct name; discriminate.
    + cbn. split; [discriminate|]. intros (n & Hn & _). discriminate.
Qed.

(** X15. [PolicySetUpdateOptions.valid]: nil exactly when the name is nil
    or a valid identifier; every other name, the empty one included, gives
    [ErrInvalidName]. *)
Theorem policy_set_update_valid (o : PolicySetUpdateOptions VCSRepoOptions) :
  (PolicySetUpdateOptions_valid o = None
   <-> PolicySetUpdateOptions_Name o = None
       \/ exists name, PolicySetUpdateOptions_Name o = Some name
                       /\ validStringID (Some name) = true)
  /\ (forall name, PolicySetUpdateOptions_Name o = Some name ->
      validStringID (Some name) = false ->
      PolicySetUpdateOptions_valid o = Some ErrInvalidName)
  /\ (PolicySetUpdateOptions_Name o = Some "" ->
      PolicySetUpdateOptions_valid o = Some ErrInvalidName).
Proof.
  unfold PolicySetUpdateOptions_valid. split; [|split].
  - destruct (PolicySetUpdateOptions_Name o) as [name|]; [|split; auto].
    destruct (validStringID (Some name)) eqn:Hid; cbn [negb].
    + split; [eauto | reflexivity].
    + split; [discriminate|].
      intros [H|(n & Hn & Hn')]; [discriminate|]. injection Hn as <-. congruence.
  - intros name Hn Hid. now rewrite Hn, Hid.
  - intros Hn. now rewrite Hn.
Qed.

(** X16. The four membership options ([PolicySetAddPoliciesOptions],
    [PolicySetRemovePoliciesOptions], [PolicySetAddWorkspacesOptions],
    [PolicySetRemoveWorkspacesOptions]) are valid exactly when their slice
    has an element; a nil slice gives "... is required" and an empty one
    "must provide at least one ...". *)
Theorem membership_options_valid :
  (forall o : PolicySetAddPoliciesOptions Policy,
     (PolicySetAddPoliciesOptions_valid o = None
      <-> exists x l, PolicySetAddPoliciesOptions_Policies o = Some (x :: l))
     /\ (PolicySetAddPoliciesOptions_Policies o = None ->
         PolicySetAddPoliciesOptions_valid o
         = Some (errors_New "policies is required"))
     /\ (PolicySetAddPoliciesOptions_Policies o = Some [] ->
         PolicySetAddPoliciesOptions_valid o
         = Some (errors_New "must provide at least one policy")))
  /\ (forall o : PolicySetRemovePoliciesOptions Policy,
        (PolicySetRemovePoliciesOptions_valid o = None
         <-> exists x l, PolicySetRemovePoliciesOptions_Policies o = Some (x :: l))
        /\ (PolicySetRemovePoliciesOptions_Policies o = None ->
            PolicySetRemovePoliciesOptions_valid o
            = Some (errors_New "policies is required"))
        /\ (PolicySetRemovePoliciesOptions_Policies o = Some [] ->
            PolicySetRemovePoliciesOptions_valid o
            = Some (errors_New "must provide at least one policy")))
  /\ (forall o : PolicySetAddWorkspacesOptions Workspace,
        (PolicySetAddWorkspacesOptions_valid o = None
         <-> exists x l, PolicySetAddWorkspacesOptions_Workspaces o = Some (x :: l))
        /\ (PolicySetAddWorkspacesOptions_Workspaces o = None ->
            PolicySetAddWorkspacesOptions_valid o
            = Some (errors_New "workspaces is required"))
        /\ (PolicySetAddWorkspacesOptions_Workspaces o = Some [] ->
            PolicySetAddWorkspacesOptions_valid o
            = Some (errors_New "must provide at least one workspace")))
  /\ (forall o : PolicySetRemoveWorkspacesOptions Workspace,
        (PolicySetRemoveWorkspacesOptions_valid o = None
         <-> exists x l, PolicySetRemoveWorkspacesOptions_Workspaces o = Some (x :: l))
        /\ (PolicySetRemoveWorkspacesOptions_Workspaces o = None ->
            PolicySetRemoveWorkspacesOptions_valid o
            = Some (errors_New "workspaces is required"))
        /\ (PolicySetRemoveWorkspacesOptions_Workspaces o = Some [] ->
            PolicySetRemoveWorkspacesOptions_valid o
            = Some (errors_New "must provide at least one workspace"))).
Proof.
  repeat split;
    unfold PolicySetAddPoliciesOptions_valid, PolicySetRemovePoliciesOptions_valid,
      PolicySetAddWorkspacesOptions_valid, PolicySetRemoveWorkspacesOptions_valid;
    destruct o as [[[|x l]|]]; cbn; intros H;
    try discriminate; try reflexivity; eauto;
    destruct H as (y & l' & H); discriminate.
Qed.

(** X17. A policy set operation that fails a check sends nothing: the
    world is left as it was, whatever the client.  The identifier is
    checked first: when it does not validate, [List] and [Create] return
    [ErrInvalidOrg] and the others the error "invalid value for policy set
    ID", whatever the options.  With a valid identifier, options that are
    not valid make [Create], [Update], [AddPolicies], [RemovePolicies],
    [AddWorkspaces] and [RemoveWorkspaces] return the error of [valid]. *)
Theorem policy_set_checks_first (id : string) (w : W) :
  (validStringID (Some id) = false ->
   (forall o, List s ctx id o w = (inr ErrInvalidOrg, w))
   /\ (forall o, Create s ctx id o w = (inr ErrInvalidOrg, w))
   /\ (forall o, ReadWithOptions s ctx id o w
                 = (inr (errors_New "invalid value for policy set ID"), w))
   /\ Read s ctx id w = (inr (errors_New "invalid value for policy set ID"), w)
   /\ (forall o, Update s ctx id o w
                 = (inr (errors_New "invalid value for policy set ID"), w))
   /\ (forall o, AddPolicies s ctx id o w
                 = (Some (errors_New "invalid value for policy set ID"), w))
   /\ (forall o, RemovePolicies s ctx id o w
                 = (Some (errors_New "invalid value for policy set ID"), w))
   /\ (forall o, AddWorkspaces s ctx id o w
                 = (Some (errors_New "invalid value for policy set ID"), w))
   /\ (forall o, RemoveWorkspaces s ctx id o w
                 = (Some (errors_New "invalid value for policy set ID"), w))
   /\ Delete s ctx id w = (Some (errors_New "invalid value for policy set ID"), w))
  /\ (validStringID (Some id) = true ->
      (forall o err, PolicySetCreateOptions_valid o = Some err ->
                     Create s ctx id o w = (inr err, w))
      /\ (forall o err, PolicySetUpdateOptions_valid o = Some err ->
                        Update s ctx id o w = (inr err, w))
      /\ (forall o err, PolicySetAddPoliciesOptions_valid o = Some err ->
                        AddPolicies s ctx id o w = (Some err, w))
      /\ (forall o err, PolicySetRemovePoliciesOptions_valid o = Some err ->
                        RemovePolicies s ctx id o w = (Some err, w))
      /\ (forall o err, PolicySetAddWorkspacesOptions_valid o = Some err ->
                        AddWorkspaces s ctx id o w = (Some err, w))
      /\ (forall o err, PolicySetRemoveWorkspacesOptions_valid o = Some err ->
                        RemoveWorkspaces s ctx id o w = (Some err, w))).
Proof.
  unfold Read, List, Create, ReadWithOptions, Update, AddPolicies, RemovePolicies,
    AddWorkspaces, RemoveWorkspaces, Delete.
  split; intros H; rewrite H; cbn [negb].
  - repeat split.
  - repeat split; intros o err Hv; rewrite Hv; reflexivity.
Qed.
End Facts.

Import Fixtures CrudFixtures.

Example policy_set_names :
  map (fun n => PolicySetCreateOptions_valid (policy_set_named n))
    [None; Some ""; Some "no spaces"; Some "sentinel-prod_1"]
  = [Some ErrRequiredName; Some ErrRequiredName; Some ErrInvalidName; None]
  /\ map (fun n => PolicySetUpdateOptions_valid (policy_set_renamed n))
       [None; Some ""; Some "no spaces"; Some "sentinel-prod_1"]
     = [None; Some ErrInvalidName; Some ErrInvalidName; None].
Proof. split; reflexivity. Qed.

Lemma policy_set_create_valid_witness :
  PolicySetCreateOptions_Name (policy_set_named (Some "no spaces")) = Some "no spaces"
  /\ validStringID (Some "no spaces") = false
  /\ PolicySetCreateOptions_valid (policy_set_named (Some "no spaces"))
     = Some ErrInvalidName.
Proof.
  assert (Hne : "no spaces" <> "") by discriminate.
  split; [reflexivity|]. split; [reflexivity|].
  exact (proj1 (proj2 (policy_set_create_valid (policy_set_named (Some "no spaces"))))
           "no spaces" eq_refl Hne eq_refl).
Defined.

Lemma policy_set_update_valid_witness :
  PolicySetUpdateOptions_Name (policy_set_renamed (Some "")) = Some ""
  /\ PolicySetUpdateOptions_valid (policy_set_renamed (Some "")) = Some ErrInvalidName.
Proof.
  split; [reflexivity|].
  exact (proj2 (proj2 (policy_set_update_valid (policy_set_renamed (Some ""))))
           eq_refl).
Defined.

Lemma membership_options_valid_witness :
  PolicySetAddPoliciesOptions_valid
    {| PolicySetAddPoliciesOptions_Policies := Some ([] : list string) |}
  = Some (errors_New "must provide at least one policy").
Proof.
  destruct (membership_options_valid (Policy := string) (Workspace := string))
    as (H & _).
  exact (proj2 (proj2 (H {| PolicySetAddPoliciesOptions_Policies := Some [] |}))
           eq_refl).
Defined.

Lemma policy_set_checks_first_witness :
  validStringID (Some "polset-1") = true
  /\ PolicySetAddPoliciesOptions_valid
       {| PolicySetAddPoliciesOptions_Policies := (None : slice string) |}
     = Some (errors_New "policies is required")
  /\ AddPolicies the_policySets tt "polset-1"
       {| PolicySetAddPoliciesOptions_Policies := None |} []
     = (Some (errors_New "policies is required"), []).
Proof.
  assert (H : validStringID (Some "polset-1") = true) by reflexivity.
  split; [exact H|]. split; [reflexivity|].
  destruct (proj2 (policy_set_checks_first (URL := string) the_policySets tt
                     "polset-1" []) H) as (_ & _ & HA & _).
  exact (HA {| PolicySetAddPoliciesOptions_Policies := None |}
            (errors_New "policies is required") eq_refl).
Defined.

(** With policies given, the request goes out. *)
Example AddPolicies_sent :
  AddPolicies the_policySets tt "polset-1"
    {| PolicySetAddPoliciesOptions_Policies := Some ["pol-1"] |} []
  = (None, ["POST policy-sets/polset-1/relationships/policies"]).
Proof. reflexivity. Qed.

End PolicySetsFacts.

(** ** Run creation *)

Module RunCreationFacts.
Import Transport Crud RunCreation.

Section Facts.
Context {W Ctx Req ConfigurationVersion Workspace Run : Type}.
Variable s : runs W Ctx Req ConfigurationVersion Workspace Run.
Variable ctx : Ctx.

(** X18. [Create] of a run: without a workspace it returns the error
    "workspace is required" and sends nothing; with one, whatever it is, it
    returns what [newRequest] and then [do] yield for [POST runs]. *)
Theorem run_Create_workspace
  (o : RunCreateOptions ConfigurationVersion Workspace) (w : W) :
  (RunCreateOptions_Workspace o = None ->
   Create s ctx o w = (inr (errors_New "workspace is required"), w))
  /\ (forall ws, RunCreateOptions_Workspace o = Some ws ->
      match newRequest (client s) "POST" "runs" o w with
      | (inr err, w') => Create s ctx o w = (inr err, w')
      | (inl req, w') => Create s ctx o w = do (client s) into_Run ctx req w'
      end).
Proof.
  unfold Create, RunCreateOptions_valid. split.
  - intros H. now rewrite H.
  - intros ws H. rewrite H. unfold bind.
    destruct (newRequest (client s) "POST" "runs" o w) as [[req|err] w']; [|reflexivity].
    destruct (do (client s) into_Run ctx req w') as [[r|err] w'']; reflexivity.
Qed.
End Facts.

Import Fixtures CrudFixtures.

Lemma run_Create_workspace_witness :
  Create the_run_creator tt (run_in None) []
  = (inr (errors_New "workspace is required"), [])
  /\ Create the_run_creator tt (run_in (Some "ws-1")) [] = (inl tt, ["POST runs"]).
Proof.
  split.
  - exact (proj1 (run_Create_workspace the_run_creator tt (run_in None) []) eq_refl).
  - exact (proj2 (run_Create_workspace the_run_creator tt (run_in (Some "ws-1")) [])
             "ws-1" eq_refl).
Defined.

End RunCreationFacts.


(** ** Workspaces *)

Module WorkspacesFacts.
Import Transport Crud Workspaces.
Local Open Scope list_scope.

(** *** Stores into a slice *)

Lemma store_app {A : Type} (l1 l2 : list A) (y x : A) :
  store (l1 ++ y :: l2) (length l1) x = Some (l1 ++ x :: l2).
Proof.
  induction l1 as [|z l1 IH]; cbn; [reflexivity|]. now rewrite IH.
Qed.

Lemma store_in_range {A : Type} (l : list A) :
  forall (i : nat) (x : A), (i < length l)%nat -> exists l', store l i x = Some l'.
Proof.
  induction l as [|y l IH]; intros i x Hi; cbn in Hi; [lia|].
  destruct i as [|i]; cbn; [eauto|].
  destruct (IH i x) as (l' & Hl'); [lia|]. rewrite Hl'. eauto.
Qed.

Lemma store_spec {A : Type} (l : list A) :
  forall (i : nat) (x : A) (l' : list A),
    store l i x = Some l' ->
    length l' = length l
    /\ nth_error l' i = Some x
    /\ forall j, j <> i -> nth_error l' j = nth_error l j.
Proof.
  induction l as [|y l IH]; intros i x l' H; cbn in H; [discriminate|].
  destruct i as [|i].
  - injection H as <-. cbn. repeat split. intros [|j] Hj; [now elim Hj | reflexivity].
  - destruct (store l i x) as [r|] eqn:Hs; [|discriminate]. injection H as <-.
    destruct (IH i x r Hs) as (Hlen & Hi & Hj). cbn. rewrite Hlen.
    repeat split; [exact Hi|]. intros [|j] Hne; [reflexivity|].
    cbn. apply Hj. lia.
Qed.

Section Facts.
Context {W VCSRepo : Type}.

(** The loop fills the slots in order and stays in range. *)
Lemma range_copy_map (rest : list (jsonapiWorkspace VCSRepo)) :
  forall done : list (option (Workspace VCSRepo)),
    range_copy (length done) rest (done ++ repeat None (length rest))
    = Some (done ++ map Workspace_ptr rest).
Proof.
  induction rest as [|ws rest IH]; intros done; cbn [range_copy length repeat map].
  - reflexivity.
  - rewrite store_app.
    replace (done ++ Workspace_ptr ws :: repeat None (length rest))
      with ((done ++ [Workspace_ptr ws]) ++ repeat None (length rest))
      by (now rewrite <- app_assoc).
    replace (S (length done)) with (length (done ++ [Workspace_ptr ws]))
      by (rewrite length_app; cbn; lia).
    rewrite IH. now rewrite <- app_assoc.
Qed.

(** X19. [Workspaces] returns the error of the request when it fails; when
    it succeeds the copying loop never runs out of range, and the result is
    the workspace of each returned entry, as many and in the same order,
    nil entries included. *)
Theorem Workspaces_in_order (c : Client W VCSRepo) (organization : string) (w : W) :
  match do c {| method := "GET";
                path := "/api/v2/organizations/" ++ organization ++ "/workspaces";
                input := None;
                output := output_jsonapiWorkspaces |} w with
  | (inr err, w') => Workspaces c organization w = (Some (inr err), w')
  | (inl result, w') =>
      Workspaces c organization w = (Some (inl (map Workspace_ptr result)), w')
      /\ length (map Workspace_ptr result) = length result
  end.
Proof.
  unfold Workspaces, bind.
  destruct (do c _ w) as [[result|err] w']; [|reflexivity].
  cbn in result. split; [|apply length_map].
  pose proof (range_copy_map result []) as H. cbn [length app] in H.
  now rewrite H.
Qed.


(** *** Sorting by name *)

Lemma compare_refl (s : string) : String.compare s s = Eq.
Proof.
  induction s as [|c s IH]; cbn; [reflexivity|].
  unfold Ascii.compare. now rewrite N.compare_refl.
Qed.

Lemma compare_lt_trans (a : string) :
  forall b c : string,
    String.compare a b = Lt -> String.compare b c = Lt -> String.compare a c = Lt.
Proof.
  induction a as [|x a IH]; intros [|y b] [|z c]; cbn; try discriminate; auto.
  unfold Ascii.compare.
  intros H1 H2.
  destruct (N.compare (N_of_ascii x) (N_of_ascii y)) eqn:E1; try discriminate H1;
    destruct (N.compare (N_of_ascii y) (N_of_ascii z)) eqn:E2; try discriminate H2.
  - apply N.compare_eq_iff in E1, E2. rewrite E1, E2, N.compare_refl. eauto.
  - apply N.compare_eq_iff in E1. now rewrite E1, E2.
  - apply N.compare_eq_iff in E2. now rewrite <- E2, E1.
  - apply N.compare_lt_iff in E1, E2.
    assert (E : N.compare (N_of_ascii x) (N_of_ascii z) = Lt)
      by (apply N.compare_lt_iff; eapply N.lt_trans; eassumption).
    now rewrite E.
Qed.

Lemma ltb_irrefl (s : string) : String.ltb s s = false.
Proof. unfold String.ltb. now rewrite compare_refl. Qed.

Lemma ltb_asym (a b : string) : String.ltb a b = true -> String.ltb b a = false.
Proof.
  unfold String.ltb. rewrite (String.compare_antisym b a).
  destruct (String.compare a b); cbn; congruence.
Qed.

Lemma ltb_trans (a b c : string) :
  String.ltb a b = true -> String.ltb b c = true -> String.ltb a c = true.
Proof.
  unfold String.ltb.
  destruct (String.compare a b) eqn:E1; try discriminate.
  destruct (String.compare b c) eqn:E2; try discriminate.
  now rewrite (compare_lt_trans a b c E1 E2).
Qed.

Lemma ltb_neither (a b : string) :
  String.ltb a b = false -> String.ltb b a = false -> a = b.
Proof.
  unfold String.ltb. rewrite (String.compare_antisym b a).
  destruct (String.compare a b) eqn:E; cbn; try discriminate.
  intros _ _. now apply String.compare_eq_iff.
Qed.

Lemma index_in_range (w : @WorkspaceNameSort VCSRepo) (i : Z) :
  in_range w i ->
  exists x, index w i = Some x /\ nth_error w (Z.to_nat i) = Some x.
Proof.
  unfold in_range, Len, index. intros H.
  replace ((0 <=? i)%Z && (i <? Z.of_nat (length w))%Z) with true
    by (symmetry; apply andb_true_iff; split; [apply Z.leb_le | apply Z.ltb_lt]; lia).
  destruct (nth_error w (Z.to_nat i)) as [x|] eqn:Hn; [eauto|].
  apply nth_error_None in Hn. lia.
Qed.

Lemma index_out_of_range (w : @WorkspaceNameSort VCSRepo) (i : Z) :
  ~ in_range w i -> index w i = None.
Proof.
  unfold in_range, Len, index. intros H.
  destruct ((0 <=? i)%Z && (i <? Z.of_nat (length w))%Z) eqn:E; [|reflexivity].
  apply andb_true_iff in E. destruct E as [E1 E2].
  apply Z.leb_le in E1. apply Z.ltb_lt in E2. elim H. lia.
Qed.

Lemma named_name_at (w : @WorkspaceNameSort VCSRepo) (i : Z) :
  named w -> in_range w i -> exists n, name_at w i = Some n.
Proof.
  intros Hn Hi. destruct (index_in_range w i Hi) as (x & Hx & Hnth).
  unfold name_at. rewrite Hx.
  unfold named in Hn. rewrite Forall_forall in Hn.
  destruct (Hn x (nth_error_In _ _ Hnth)) as (ws & n & -> & Hname).
  rewrite Hname. eauto.
Qed.


Lemma index_nth (w : @WorkspaceNameSort VCSRepo) (i : Z) :
  in_range w i -> index w i = nth_error w (Z.to_nat i).
Proof.
  intros H. destruct (index_in_range w i H) as (x & Hx & Hn). congruence.
Qed.

(** X22. [Swap] on two indices in range exchanges the two entries and
    nothing else: the length is kept, each of the two positions holds what
    the other held, every other position is untouched, and swapping again
    restores the slice.  An index out of range makes it panic. *)
Theorem Swap_exchanges (w : @WorkspaceNameSort VCSRepo) (a b : Z) :
  (in_range w a -> in_range w b ->
   exists w', Swap w a b = Some w'
              /\ Len w' = Len w
              /\ index w' a = index w b
              /\ index w' b = index w a
              /\ (forall i, i <> a -> i <> b -> index w' i = index w i)
              /\ Swap w' a b = Some w)
  /\ (~ in_range w a \/ ~ in_range w b -> Swap w a b = None).
Proof.
  split.
  - intros Ha Hb.
    assert (Hswap : forall (v : @WorkspaceNameSort VCSRepo),
               in_range v a -> in_range v b ->
               exists v', Swap v a b = Some v'
                          /\ length v' = length v
                          /\ nth_error v' (Z.to_nat a) = nth_error v (Z.to_nat b)
                          /\ nth_error v' (Z.to_nat b) = nth_error v (Z.to_nat a)
                          /\ (forall j, j <> Z.to_nat a -> j <> Z.to_nat b ->
                                        nth_error v' j = nth_error v j)).
    { intros v Hva Hvb.
      destruct (index_in_range v a Hva) as (y & Hy & Hny).
      destruct (index_in_range v b Hvb) as (x & Hx & Hnx).
      unfold Swap. rewrite Hx, Hy.
      destruct (store_in_range v (Z.to_nat a) x) as (v1 & H1);
        [unfold in_range, Len in Hva; lia|].
      destruct (store_spec v _ _ _ H1) as (L1 & E1 & N1).
      destruct (store_in_range v1 (Z.to_nat b) y) as (v2 & H2);
        [unfold in_range, Len in Hvb; lia|].
      destruct (store_spec v1 _ _ _ H2) as (L2 & E2 & N2).
      rewrite H1, H2. exists v2. split; [reflexivity|].
      split; [lia|]. split; [|split].
      - destruct (Nat.eq_dec (Z.to_nat a) (Z.to_nat b)) as [E|E].
        + rewrite E, E2, Hnx. rewrite <- Hny, E. exact Hnx.
        + rewrite (N2 _ E), E1. now rewrite Hnx.
      - now rewrite E2, Hny.
      - intros j Hja Hjb. now rewrite (N2 j Hjb), (N1 j Hja). }
    destruct (Hswap w Ha Hb) as (w' & HS & HL & Ea & Eb & Eo).
    assert (Ha' : in_range w' a) by (unfold in_range, Len in *; lia).
    assert (Hb' : in_range w' b) by (unfold in_range, Len in *; lia).
    exists w'. split; [exact HS|]. split; [unfold Len; lia|].
    split; [now rewrite (index_nth w' a Ha'), (index_nth w b Hb)|].
    split; [now rewrite (index_nth w' b Hb'), (index_nth w a Ha)|].
    split.
    + intros i Hia Hib.
      destruct (Z_lt_dec i 0) as [Hneg|Hpos].
      * rewrite !index_out_of_range; [reflexivity | |]; unfold in_range; lia.
      * destruct (Z_lt_dec i (Len w)) as [Hlt|Hge].
        -- assert (Hi : in_range w i) by (unfold in_range; lia).
           assert (Hi' : in_range w' i) by (unfold in_range, Len in *; lia).
           rewrite (index_nth w' i Hi'), (index_nth w i Hi).
           apply Eo; unfold in_range in *; lia.
        -- rewrite !index_out_of_range; [reflexivity | |];
             unfold in_range, Len in *; lia.
    + destruct (Hswap w' Ha' Hb') as (w'' & HS' & HL' & Ea' & Eb' & Eo').
      rewrite HS'. f_equal. apply nth_error_ext. intros j.
      destruct (Nat.eq_dec j (Z.to_nat a)) as [->|Hja]; [now rewrite Ea', Eb|].
      destruct (Nat.eq_dec j (Z.to_nat b)) as [->|Hjb]; [now rewrite Eb', Ea|].
      now rewrite (Eo' j Hja Hjb), (Eo j Hja Hjb).
  - intros [H|H]; unfold Swap; rewrite (index_out_of_range _ _ H);
      [destruct (index w b)|]; reflexivity.
Qed.
End Facts.

Import Fixtures CrudFixtures.

(** The three workspaces of the service, as listed. *)
Lemma Workspaces_in_order_witness :
  Workspaces workspace_client "acme" []
  = (Some (inl three_workspaces), ["GET /api/v2/organizations/acme/workspaces"]).
Proof.
  exact (proj1 (Workspaces_in_order workspace_client "acme" [])).
Defined.


(** prod, dev, staging: dev sorts before prod, prod before staging. *)
Example Less_on_three :
  (Less three_workspaces 1 0, Less three_workspaces 0 2, Less three_workspaces 0 1,
   Less three_workspaces 0 3, Less three_workspaces (-1) 0)
  = (Some true, Some true, Some false, None, None).
Proof. reflexivity. Qed.

Lemma three_named : named three_workspaces.
Proof. repeat constructor; eexists; eexists; split; reflexivity. Qed.


Lemma Swap_exchanges_witness :
  in_range three_workspaces 0 /\ in_range three_workspaces 2
  /\ exists w', Swap three_workspaces 0 2 = Some w'
                /\ index w' 0 = index three_workspaces 2
                /\ Swap w' 0 2 = Some three_workspaces.
Proof.
  assert (H0 : in_range three_workspaces 0) by (unfold in_range; cbn; lia).
  assert (H2 : in_range three_workspaces 2) by (unfold in_range; cbn; lia).
  split; [exact H0|]. split; [exact H2|].
  destruct (proj1 (Swap_exchanges three_workspaces 0 2) H0 H2)
    as (w' & HS & _ & Ha & _ & _ & HS').
  exists w'. auto.
Defined.

End WorkspacesFacts.
